(** * Gabor noise helpers of liboslnoise (src/liboslnoise/gabornoise.h)

    A shallow embedding of the per-cell random number generator
    [fast_rng], the Gabor kernel [gabor_kernel], the dimensional slicer
    [slice_gabor_kernel_3d], the analytic filter [filter_gabor_kernel_2d],
    the periodic [wrap], the basis builder [make_orthonormals] and the
    per-component [floor] of a [Dual2<Vec3>].

    Numbers.  C [unsigned int] is a [Z] in [0, 2^32) with the wrap-around
    written out.  C [float] is idealised as a real number: [expf], [cosf],
    [sqrtf], [floorf] and [fabsf] are the real functions, arithmetic is
    exact, and there is neither rounding nor NaN nor infinity.  The one
    place where single-precision rounding is looked at bit by bit is
    [Binary32], which re-runs the generator's draw in IEEE binary32. *)

From Stdlib Require Import ZArith Reals Lra Lia List Bool.
From Stdlib Require Import Reals.Zfloor Floats.SpecFloat.
Import ListNotations.

#[local] Open Scope Z_scope.

(** ** Machine integers *)

Module UInt32.

Definition modulus : Z := 2 ^ 32.
Definition UINT_MAX : Z := 4294967295.

(** Conversion of an integer to [unsigned int] (C: reduction modulo 2^32). *)
Definition unsigned (z : Z) : Z := z mod modulus.

(** Conversion of an [unsigned int] to [int] (two's complement). *)
Definition to_int (u : Z) : Z :=
  if u <? 2 ^ 31 then u else u - modulus.

Definition mul (a b : Z) : Z := unsigned (a * b).
Definition incr (a : Z) : Z := unsigned (a + 1).

End UInt32.

(** ** Vectors, matrices and dual numbers *)

Definition float : Type := R.

Record Vec2 : Type := mkVec2 { x2 : float; y2 : float }.
Record Vec3 : Type := mkVec3 { x3 : float; y3 : float; z3 : float }.

(** [Dual2<T>]: a value with its partial derivatives along the two
    sampling directions. *)
Record Dual2 (T : Type) : Type := mkDual2 { val : T; dx : T; dy : T }.
Arguments mkDual2 {T} _ _ _.
Arguments val {T} _.
Arguments dx {T} _.
Arguments dy {T} _.

#[local] Open Scope R_scope.

Definition M_PI : float := PI.
Definition M_TWO_PI : float := 2 * PI.

(** Imath's [Vec3] and [Vec2] operations used by the header. *)
Module Imath.

Definition dot3 (a b : Vec3) : float :=
  x3 a * x3 b + y3 a * y3 b + z3 a * z3 b.

Definition dot2 (a b : Vec2) : float :=
  x2 a * x2 b + y2 a * y2 b.

Definition length3 (v : Vec3) : float := sqrt (dot3 v v).

(** [Vec3::normalize]: divides by the length unless the length is zero. *)
Definition normalize3 (v : Vec3) : Vec3 :=
  let l := length3 v in
  if Req_dec_T l 0 then v
  else mkVec3 (x3 v / l) (y3 v / l) (z3 v / l).

(** [Vec3::cross]. *)
Definition cross (a b : Vec3) : Vec3 :=
  mkVec3 (y3 a * z3 b - z3 a * y3 b)
         (z3 a * x3 b - x3 a * z3 b)
         (x3 a * y3 b - y3 a * x3 b).

Definition zero3 : Vec3 := mkVec3 0 0 0.

End Imath.

(** ** Matrix22

    The 2x2 matrix type of OSL/Imathx.h is not part of the header.  The
    spec asks for "a 2x2 matrix type supporting determinant, inverse, and
    matrix-vector multiplication"; the operations below are the textbook
    ones. *)
Module Matrix22.

(** Modelled from the spec: the 2x2 matrix type [Matrix22] (OSL/Imathx.h),
    by its four entries, row by row. *)
Record t : Type := mk { m00 : float; m01 : float; m10 : float; m11 : float }.

(** Modelled from the spec: the default constructor [Matrix22 ()] of
    OSL/Imathx.h, the identity (the kernel's isotropic covariance is a
    multiple of it). *)
Definition identity : t := mk 1 0 0 1.

(** Modelled from the spec: [float * Matrix22] of OSL/Imathx.h. *)
Definition scale (s : float) (m : t) : t :=
  mk (s * m00 m) (s * m01 m) (s * m10 m) (s * m11 m).

(** Modelled from the spec: [Matrix22 + Matrix22] of OSL/Imathx.h. *)
Definition add (a b : t) : t :=
  mk (m00 a + m00 b) (m01 a + m01 b) (m10 a + m10 b) (m11 a + m11 b).

(** Modelled from the spec: [Matrix22 * Matrix22] of OSL/Imathx.h. *)
Definition mul (a b : t) : t :=
  mk (m00 a * m00 b + m01 a * m10 b) (m00 a * m01 b + m01 a * m11 b)
     (m10 a * m00 b + m11 a * m10 b) (m10 a * m01 b + m11 a * m11 b).

(** Modelled from the spec: [determinant] of OSL/Imathx.h. *)
Definition determinant (m : t) : float := m00 m * m11 m - m01 m * m10 m.

(** Modelled from the spec: [Matrix22::inverse] of OSL/Imathx.h, the
    adjugate over the determinant. *)
Definition inverse (m : t) : t :=
  let d := determinant m in
  mk (m11 m / d) (- m01 m / d) (- m10 m / d) (m00 m / d).

(** Modelled from the spec: [Matrix22 * Vec2] of OSL/Imathx.h, matrix
    times column vector. *)
Definition mulVec (m : t) (v : Vec2) : Vec2 :=
  mkVec2 (m00 m * x2 v + m01 m * y2 v) (m10 m * x2 v + m11 m * y2 v).

(** Modelled from the spec: [Matrix22::multMatrix (src, dst)] of
    OSL/Imathx.h, row vector times matrix as in Imath. *)
Definition multMatrix (m : t) (src : Vec2) : Vec2 :=
  mkVec2 (x2 src * m00 m + y2 src * m10 m) (x2 src * m01 m + y2 src * m11 m).

End Matrix22.

(** ** Dual arithmetic

    The operators of OSL/dual.h and OSL/dual_vec.h are not part of the
    header.  The spec asks for "addition, subtraction, multiplication,
    exp, cos, dot, each propagating first-order partials under standard
    calculus rules (product rule, chain rule) in addition to the plain
    value". *)
Module Dual.

Definition D2 : Type := Dual2 float.

(** Modelled from the spec: the conversion of a [float] to a
    [Dual2<float>] (OSL/dual.h), with zero partials. *)
Definition const (c : float) : D2 := mkDual2 c 0 0.

(** Modelled from the spec: [Dual2 + Dual2] of OSL/dual.h. *)
Definition add (a b : D2) : D2 :=
  mkDual2 (val a + val b) (dx a + dx b) (dy a + dy b).

(** Modelled from the spec: [Dual2 - Dual2] of OSL/dual.h. *)
Definition sub (a b : D2) : D2 :=
  mkDual2 (val a - val b) (dx a - dx b) (dy a - dy b).

(** Modelled from the spec: [Dual2 * Dual2] of OSL/dual.h, by the
    product rule. *)
Definition mul (a b : D2) : D2 :=
  mkDual2 (val a * val b)
          (val a * dx b + dx a * val b)
          (val a * dy b + dy a * val b).

(** Modelled from the spec: [float * Dual2] of OSL/dual.h. *)
Definition smul (c : float) (a : D2) : D2 :=
  mkDual2 (c * val a) (c * dx a) (c * dy a).

(** Modelled from the spec: [Dual2 * float] of OSL/dual.h. *)
Definition muls (a : D2) (c : float) : D2 :=
  mkDual2 (val a * c) (dx a * c) (dy a * c).

(** Modelled from the spec: [float - Dual2] of OSL/dual.h. *)
Definition ssub (c : float) (a : D2) : D2 :=
  mkDual2 (c - val a) (- dx a) (- dy a).

(** Modelled from the spec: [exp (Dual2)] of OSL/dual.h, by the chain
    rule. *)
Definition exp (a : D2) : D2 :=
  let e := Rtrigo_def.exp (val a) in
  mkDual2 e (e * dx a) (e * dy a).

(** Modelled from the spec: [cos (Dual2)] of OSL/dual.h, by the chain
    rule. *)
Definition cos (a : D2) : D2 :=
  let s := Rtrigo_def.sin (val a) in
  mkDual2 (Rtrigo_def.cos (val a)) (- s * dx a) (- s * dy a).

(** Modelled from the spec: [dot (Dual2<Vec3>, Dual2<Vec3>)] of
    OSL/dual_vec.h. *)
Definition dot3 (a b : Dual2 Vec3) : D2 :=
  mkDual2 (Imath.dot3 (val a) (val b))
          (Imath.dot3 (val a) (dx b) + Imath.dot3 (dx a) (val b))
          (Imath.dot3 (val a) (dy b) + Imath.dot3 (dy a) (val b)).

(** Modelled from the spec: [dot (Vec3, Dual2<Vec3>)] of OSL/dual_vec.h. *)
Definition sdot3 (a : Vec3) (b : Dual2 Vec3) : D2 :=
  mkDual2 (Imath.dot3 a (val b)) (Imath.dot3 a (dx b)) (Imath.dot3 a (dy b)).

(** Modelled from the spec: [dot (Dual2<Vec2>, Dual2<Vec2>)] of
    OSL/dual_vec.h. *)
Definition dot2 (a b : Dual2 Vec2) : D2 :=
  mkDual2 (Imath.dot2 (val a) (val b))
          (Imath.dot2 (val a) (dx b) + Imath.dot2 (dx a) (val b))
          (Imath.dot2 (val a) (dy b) + Imath.dot2 (dy a) (val b)).

(** Modelled from the spec: [dot (Vec2, Dual2<Vec2>)] of OSL/dual_vec.h. *)
Definition sdot2 (a : Vec2) (b : Dual2 Vec2) : D2 :=
  mkDual2 (Imath.dot2 a (val b)) (Imath.dot2 a (dx b)) (Imath.dot2 a (dy b)).

End Dual.

(** [floorf] on idealised floats. *)
Definition floorf (x : float) : float := IZR (Zfloor x).

(** ** External collaborators of the generator

    [inthash<4>] (the integer hash of OSL/oslnoise.h) and [quick_floor]
    (float to int) are used by the constructor of [fast_rng] and are
    not defined in the header: they are taken as parameters. *)
Class Collaborators : Type := {
  inthash : list Z -> Z;
  quick_floor : float -> Z
}.

(** ** fast_rng *)

Module fast_rng.

(** The object's only member, [unsigned int m_seed]. *)
Definition state : Type := Z.

Definition multiplier : Z := 3039177861.

Section WithCollaborators.
Context `{Collaborators}.

(** [fast_rng (const Vec3 &p, int seed)] *)
Definition make (p : Vec3) (seed : Z) : state :=
  let pi := [ UInt32.unsigned (quick_floor (x3 p));
              UInt32.unsigned (quick_floor (y3 p));
              UInt32.unsigned (quick_floor (z3 p));
              UInt32.unsigned seed ] in
  let m_seed := UInt32.unsigned (inthash pi) in
  if (m_seed =? 0)%Z then 1%Z else m_seed.

(** The generator of a cell, from the integer cell coordinates and the
    seed alone (what [make] computes once [quick_floor] has been taken). *)
Definition cell_rng (i j k seed : Z) : state :=
  let h := UInt32.unsigned
             (inthash [ UInt32.unsigned i; UInt32.unsigned j;
                        UInt32.unsigned k; UInt32.unsigned seed ]) in
  if (h =? 0)%Z then 1%Z else h.

End WithCollaborators.

(** [m_seed *= 3039177861u] *)
Definition advance (m_seed : state) : state := UInt32.mul m_seed multiplier.

(** [float operator() ()]: the draw and the generator afterwards.  The
    quotient is taken exactly, by [UINT_MAX] itself; the value the
    single-precision division gives is in [Binary32.call]. *)
Definition call (m_seed : state) : float * state :=
  let m_seed' := advance m_seed in
  (IZR m_seed' / IZR UInt32.UINT_MAX, m_seed').

(** The [while (t > g)] loop of [poisson], with the loop variables as
    arguments; [None] when the fuel runs out. *)
Fixpoint poisson_loop (fuel : nat) (g t : float) (em : Z) (rng : state)
  : option (Z * state) :=
  match fuel with
  | O => None
  | S fuel' =>
      if Rgt_dec t g then
        let em' := UInt32.incr em in
        let (u, rng') := call rng in
        poisson_loop fuel' g (t * u) em' rng'
      else Some (UInt32.to_int em, rng)
  end.

(** [int poisson (float mean)] *)
Definition poisson (fuel : nat) (mean : float) (rng : state)
  : option (Z * state) :=
  let g := exp (- mean) in
  let em := 0%Z in
  let (t, rng') := call rng in
  poisson_loop fuel g t em rng'.

(** The generator after [n] draws. *)
Fixpoint after (n : nat) (rng : state) : state :=
  match n with
  | O => rng
  | S n' => after n' (advance rng)
  end.

(** The [k]-th draw of the stream that starts at [rng] (from 0). *)
Definition draw (k : nat) (rng : state) : float := fst (call (after k rng)).

(** The first [n] draws. *)
Fixpoint draws (n : nat) (rng : state) : list float :=
  match n with
  | O => []
  | S n' => let (u, rng') := call rng in u :: draws n' rng'
  end.

(** Product of the first [n] draws. *)
Fixpoint product (n : nat) (rng : state) : float :=
  match n with
  | O => 1
  | S n' => product n' rng * draw n' rng
  end.


End fast_rng.


(** ** gabor_kernel

    The template parameter [VEC] is [Vec3] or [Vec2]; what the kernel
    needs from it are the two [dot] overloads. *)
Class DualVec (VEC : Type) : Type := {
  dot_dd : Dual2 VEC -> Dual2 VEC -> Dual.D2;
  dot_vd : VEC -> Dual2 VEC -> Dual.D2
}.

#[export] Instance DualVec3 : DualVec Vec3 :=
  {| dot_dd := Dual.dot3; dot_vd := Dual.sdot3 |}.

#[export] Instance DualVec2 : DualVec Vec2 :=
  {| dot_dd := Dual.dot2; dot_vd := Dual.sdot2 |}.

Definition gabor_kernel {VEC : Type} `{DualVec VEC}
    (weight : Dual.D2) (omega : VEC) (phi : Dual.D2) (bandwidth : float)
    (x : Dual2 VEC) : Dual.D2 :=
  let g := Dual.exp (Dual.smul (- M_PI * (bandwidth * bandwidth)) (dot_dd x x)) in
  let h := Dual.cos (Dual.add (Dual.smul M_TWO_PI (dot_vd omega x)) phi) in
  Dual.mul (Dual.mul weight g) h.

(** ** slice_gabor_kernel_3d

    The three output references [w_s], [omega_s], [phi_s] are returned
    as a record. *)
Record SlicedKernel : Type := mkSlicedKernel {
  w_s : Dual.D2;
  omega_s : Vec2;
  phi_s : Dual.D2
}.

Definition slice_gabor_kernel_3d (d : Dual.D2) (w a : float) (omega : Vec3)
    (phi : float) : SlicedKernel :=
  {| w_s := Dual.smul w (Dual.exp (Dual.smul (- M_PI * (a * a)) (Dual.mul d d)));
     omega_s := mkVec2 (x3 omega) (y3 omega);
     phi_s := Dual.ssub phi (Dual.muls (Dual.smul M_TWO_PI d) (x3 omega)) |}.

(** ** filter_gabor_kernel_2d

    The four output references [w_f], [a_f], [omega_f], [phi_f] are
    returned as a record. *)
Record FilteredKernel : Type := mkFilteredKernel {
  w_f : Dual.D2;
  a_f : float;
  omega_f : Vec2;
  phi_f : Dual.D2
}.

Definition filter_gabor_kernel_2d (filter : Matrix22.t) (w : Dual.D2) (a : float)
    (omega : Vec2) (phi : Dual.D2) : FilteredKernel :=
  let Sigma_f := filter in
  let c_G := w in
  let mu_G := omega in
  let Sigma_G := Matrix22.scale (a * a / M_TWO_PI) Matrix22.identity in
  let c_F := 1 / (M_TWO_PI * sqrt (Matrix22.determinant Sigma_f)) in
  let Sigma_F := Matrix22.scale (1 / (4 * M_PI * M_PI)) (Matrix22.inverse Sigma_f) in
  let Sigma_G_Sigma_F := Matrix22.add Sigma_G Sigma_F in
  let c_GF :=
    Dual.muls
      (Dual.muls (Dual.smul c_F c_G)
         (1 / (M_TWO_PI * sqrt (Matrix22.determinant Sigma_G_Sigma_F))))
      (exp (- (1 / 2) *
              Imath.dot2 (Matrix22.mulVec (Matrix22.inverse Sigma_G_Sigma_F) mu_G) mu_G)) in
  let Sigma_G_i := Matrix22.inverse Sigma_G in
  let Sigma_GF := Matrix22.inverse (Matrix22.add (Matrix22.inverse Sigma_F) Sigma_G_i) in
  let Sigma_GF_Gi := Matrix22.mul Sigma_GF Sigma_G_i in
  let mu_GF := Matrix22.multMatrix Sigma_GF_Gi mu_G in
  {| w_f := c_GF;
     a_f := sqrt (M_TWO_PI * sqrt (Matrix22.determinant Sigma_GF));
     omega_f := mu_GF;
     phi_f := phi |}.

(** ** wrap *)
Definition wrap (s period : float) : float :=
  let period := floorf period in
  let period := if Rlt_dec period 1 then 1 else period in
  s - period * floorf (s / period).

Definition wrap3 (s period : Vec3) : Vec3 :=
  mkVec3 (wrap (x3 s) (x3 period))
         (wrap (y3 s) (y3 period))
         (wrap (z3 s) (z3 period)).

(** ** make_orthonormals

    [v], [a] and [b] are in-out references; the function returns their
    final values.  The incoming [a] and [b] are overwritten. *)
Record Orthonormals : Type := mkOrthonormals {
  out_v : Vec3;
  out_a : Vec3;
  out_b : Vec3
}.

Definition make_orthonormals (v a b : Vec3) : Orthonormals :=
  let v := Imath.normalize3 v in
  let a := if Rlt_dec (Rabs (x3 v)) (9 / 10)
           then mkVec3 0 (z3 v) (- y3 v)
           else mkVec3 (- z3 v) 0 (x3 v) in
  let a := Imath.normalize3 a in
  let b := Imath.cross v a in
  {| out_v := v; out_a := a; out_b := b |}.

(** ** floor of a Dual2<Vec3> *)
Definition floor (vd : Dual2 Vec3) : Vec3 :=
  let v := val vd in
  mkVec3 (floorf (x3 v)) (floorf (y3 v)) (floorf (z3 v)).

(** ** NoiseParams

    The header only names the type [NoiseParams] (in the forward
    declarations of [fast_gabor] and [fast_gabor3]); its fields and its
    validation are described by the spec. *)

(** Modelled from the spec: the two configuration errors, "non-positive
    bandwidth" and "singular footprint covariance". *)
Inductive ConfigError : Type :=
| NonPositiveBandwidth
| SingularFootprint.

(** Modelled from the spec: the anisotropy mode of [NoiseParams]. *)
Inductive Anisotropy : Type := Isotropic | Anisotropic.

(** Modelled from the spec: [NoiseParams], with the fields of the
    configuration surface: bandwidth, anisotropy mode and base direction,
    filtering flag and footprint covariance, periodicity and period
    vector. *)
Record NoiseParams : Type := mkNoiseParams {
  anisotropic : Anisotropy;
  bandwidth : float;
  direction : Vec3;
  do_filter : bool;
  footprint : Matrix22.t;
  periodic : bool;
  period : Vec3
}.

(** Modelled from the spec: a validated [NoiseParams], the only thing
    the per-sample path accepts ("the hot evaluation path assumes validated
    parameters"): the bandwidth is positive and the footprint covariance
    is not singular (its determinant is positive). *)
Record ValidParams : Type := mkValidParams {
  params : NoiseParams;
  bandwidth_ok : ~ bandwidth params <= 0;
  footprint_ok : ~ Matrix22.determinant (footprint params) <= 0
}.

(** Modelled from the spec: construction and validation of the
    parameters, done once and outside any per-sample loop: "non-positive
    bandwidth" and "singular footprint covariance (non-positive
    determinant)" are the two configuration errors. *)
Definition NoiseParams_construct (p : NoiseParams) : ConfigError + ValidParams :=
  match Rle_dec (bandwidth p) 0 with
  | left _ => inl NonPositiveBandwidth
  | right Hb =>
      match Rle_dec (Matrix22.determinant (footprint p)) 0 with
      | left _ => inl SingularFootprint
      | right Hd =>
          inr {| params := p; bandwidth_ok := Hb; footprint_ok := Hd |}
      end
  end.

(** Modelled from the spec: the filtering of one impulse on the
    per-sample path (step 4 of the cell summation, whose code is in
    fast_gabor.h).  It takes validated parameters, checks nothing and
    cannot fail: it is the call of [filter_gabor_kernel_2d]. *)
Definition filter_step (vp : ValidParams) (w : Dual.D2) (omega : Vec2)
    (phi : Dual.D2) : FilteredKernel :=
  filter_gabor_kernel_2d (footprint (params vp)) w (bandwidth (params vp)) omega phi.

(** Modelled from the spec: one filtered evaluation from a configuration
    and the impulses to filter: the parameters are constructed first,
    once; the per-sample loop runs only on validated parameters. *)
Definition evaluate_filtered (p : NoiseParams)
    (impulses : list (Dual.D2 * Vec2 * Dual.D2)) : ConfigError + list FilteredKernel :=
  match NoiseParams_construct p with
  | inl e => inl e
  | inr vp =>
      inr (map (fun i => filter_step vp (fst (fst i)) (snd (fst i)) (snd i)) impulses)
  end.

(** What line 139 of the header divides by: [M_TWO_PI * sqrtf (determinant (Sigma_f))]. *)
Definition c_F_divisor (Sigma_f : Matrix22.t) : float :=
  M_TWO_PI * sqrt (Matrix22.determinant Sigma_f).

(** ** The generator's draw in IEEE binary32

    [operator()] once more, with the conversion of [m_seed] and of
    [UINT_MAX] to [float] and the division rounded to nearest even in
    single precision (24-bit significand, [emax] 128). *)
Module Binary32.

Definition prec : Z := 24.
Definition emax : Z := 128.

Definition of_unsigned (u : Z) : spec_float := binary_normalize prec emax u 0 false.

Definition div (a b : spec_float) : spec_float := SFdiv prec emax a b.

Definition one : spec_float := S754_finite false 8388608 (-23).

Definition call (m_seed : fast_rng.state) : spec_float * fast_rng.state :=
  let m_seed' := fast_rng.advance m_seed in
  (div (of_unsigned m_seed') (of_unsigned UInt32.UINT_MAX), m_seed').

End Binary32.


(** ** Definitions used in the statements

    These are not in the header; they name what the properties below
    talk about. *)

(** The largest value [operator()] can return below 1. *)
Definition below_one : R := IZR (UInt32.UINT_MAX - 1) / IZR UInt32.UINT_MAX.

(** The period [wrap] works with, in the words of its description:
    floored, then clamped to at least 1. *)
Definition clamped_period (period : float) : float := Rmax 1 (floorf period).

(** The Gabor kernel as a formula of real numbers:
    [weight * exp (- pi bandwidth^2 |x|^2) * cos (2 pi (omega . x) + phase)]. *)
Definition gabor_value (weight : R) (omega : Vec3) (phase bandwidth : R) (x : Vec3) : R :=
  weight * exp (- PI * bandwidth ^ 2 * Imath.dot3 x x)
         * cos (2 * PI * Imath.dot3 omega x + phase).

(** A dual number [d] carries a function [f] of the two sampling
    parameters at [(u, v)]: its value is [f u v] and its two partials are
    the derivatives of [f] along the first and the second parameter. *)
Definition carries (f : R -> R -> R) (u v : R) (d : Dual.D2) : Prop :=
  val d = f u v /\
  derivable_pt_lim (fun s => f s v) u (dx d) /\
  derivable_pt_lim (fun t => f u t) v (dy d).

(** One component of a [Dual2<Vec3>] as a [Dual2<float>]. *)
Definition comp_x (x : Dual2 Vec3) : Dual.D2 := mkDual2 (x3 (val x)) (x3 (dx x)) (x3 (dy x)).
Definition comp_y (x : Dual2 Vec3) : Dual.D2 := mkDual2 (y3 (val x)) (y3 (dx x)) (y3 (dy x)).
Definition comp_z (x : Dual2 Vec3) : Dual.D2 := mkDual2 (z3 (val x)) (z3 (dx x)) (z3 (dy x)).

(** One component of a [Dual2<Vec2>] as a [Dual2<float>]. *)
Definition comp2_x (x : Dual2 Vec2) : Dual.D2 := mkDual2 (x2 (val x)) (x2 (dx x)) (x2 (dy x)).
Definition comp2_y (x : Dual2 Vec2) : Dual.D2 := mkDual2 (y2 (val x)) (y2 (dx x)) (y2 (dy x)).


(** The matrix [c * I]. *)
Definition diag (c : float) : Matrix22.t := Matrix22.mk c 0 0 c.

(** A stand-in for the collaborators, to run the statements on concrete
    inputs: the floor for [quick_floor] and a toy mixing function for the
    hash (not the hash of OSL/oslnoise.h). *)
Definition toy_collaborators : Collaborators :=
  {| inthash := fun k => fold_left (fun h x => (h * 31 + x + 7)%Z) k 0%Z;
     quick_floor := Zfloor |}.



(** ** Definitions used in the further properties *)

(** The inverse of the multiplier modulo 2^32, and the step backwards. *)
Definition inverse_multiplier : Z := 1186131021.

Definition retreat (m_seed : fast_rng.state) : fast_rng.state :=
  UInt32.mul m_seed inverse_multiplier.

(** [x], squared [j] times modulo 2^32. *)
Fixpoint square_chain (j : nat) (x : Z) : Z :=
  match j with
  | O => x mod UInt32.modulus
  | S j' => let y := square_chain j' x in (y * y) mod UInt32.modulus
  end.

(** The 128 largest 32-bit values, [0xFFFFFF80 .. 0xFFFFFFFF]. *)
Definition top_states : list Z :=
  map (fun k => (4294967168 + Z.of_nat k)%Z) (seq 0 128).


Definition add3 (v w : Vec3) : Vec3 :=
  mkVec3 (x3 v + x3 w) (y3 v + y3 w) (z3 v + z3 w).

(** The footprint covariance with variances [p] and [q] along the two
    axes of the kernel's frame. *)
Definition diag2 (p q : float) : Matrix22.t := Matrix22.mk p 0 0 q.


(** ** What the constructor needs of quick_floor *)


(** A conversion that is not a floor, to show what [floor_like] rules
    out: truncation toward zero, minus one below zero (it sends -1 to -2
    and -1/2 to -1).  The hash keeps the first key. *)
Definition truncating_collaborators : Collaborators :=
  {| inthash := fun k => nth 0 k 0%Z;
     quick_floor := fun x => if Rlt_dec x 0 then (Zceil x - 1)%Z else Zfloor x |}.


(** * Properties *)

(** ** The generator's state *)

#[local] Open Scope Z_scope.

Lemma unsigned_range (z : Z) : 0 <= UInt32.unsigned z < 2 ^ 32.
Proof. unfold UInt32.unsigned, UInt32.modulus. apply Z.mod_pos_bound. lia. Qed.

Lemma unsigned_small (z : Z) : 0 <= z < 2 ^ 32 -> UInt32.unsigned z = z.
Proof. intros Hz. unfold UInt32.unsigned, UInt32.modulus. apply Z.mod_small. exact Hz. Qed.

Lemma multiplier_odd : Z.odd fast_rng.multiplier = true.
Proof. reflexivity. Qed.

Lemma multiplier_coprime : Z.gcd UInt32.modulus fast_rng.multiplier = 1.
Proof. reflexivity. Qed.

Lemma advance_range (s : fast_rng.state) : 0 <= fast_rng.advance s < 2 ^ 32.
Proof. unfold fast_rng.advance, UInt32.mul. apply unsigned_range. Qed.

(** An odd multiplier is a unit modulo 2^32: the step sends no non-zero
    state to zero. *)
Lemma advance_nonzero (s : fast_rng.state) :
  0 < s < 2 ^ 32 -> 0 < fast_rng.advance s < 2 ^ 32.
Proof.
  intros Hs.
  assert (Hr := advance_range s).
  assert (Hne : fast_rng.advance s <> 0); [ | lia ].
  unfold fast_rng.advance, UInt32.mul, UInt32.unsigned. intros Hz.
  apply Z.mod_divide in Hz; [ | unfold UInt32.modulus; lia ].
  rewrite Z.mul_comm in Hz.
  apply Z.gauss in Hz; [ | exact multiplier_coprime ].
  destruct Hz as [k Hk]. unfold UInt32.modulus in Hk.
  assert (k = 0 \/ 1 <= k \/ k <= -1) as [Hk0 | [Hk1 | Hk1]] by lia; nia.
Qed.

Lemma after_S (n : nat) (s : fast_rng.state) :
  fast_rng.after (S n) s = fast_rng.advance (fast_rng.after n s).
Proof.
  revert s. induction n as [ | n IH ]; intros s; [ reflexivity | ].
  change (fast_rng.after (S (S n)) s) with (fast_rng.after (S n) (fast_rng.advance s)).
  rewrite IH. reflexivity.
Qed.

Lemma after_nonzero (n : nat) (s : fast_rng.state) :
  0 < s < 2 ^ 32 -> 0 < fast_rng.after n s < 2 ^ 32.
Proof.
  intros Hs. induction n as [ | n IH ]; [ exact Hs | ].
  rewrite after_S. apply advance_nonzero. exact IH.
Qed.

Lemma call_state (s : fast_rng.state) : snd (fast_rng.call s) = fast_rng.advance s.
Proof. reflexivity. Qed.

Lemma call_value (s : fast_rng.state) :
  fst (fast_rng.call s) = (IZR (fast_rng.advance s) / IZR UInt32.UINT_MAX)%R.
Proof. reflexivity. Qed.

Lemma call_bounds (s : fast_rng.state) : (0 <= fst (fast_rng.call s) <= 1)%R.
Proof.
  rewrite call_value. assert (Hr := advance_range s).
  assert (H0 : (0 <= IZR (fast_rng.advance s))%R) by (apply IZR_le; lia).
  assert (H1 : (IZR (fast_rng.advance s) <= IZR UInt32.UINT_MAX)%R)
    by (apply IZR_le; unfold UInt32.UINT_MAX; lia).
  assert (Hm : (0 < IZR UInt32.UINT_MAX)%R) by (apply IZR_lt; reflexivity).
  split.
  - apply Rmult_le_reg_r with (r := IZR UInt32.UINT_MAX); [ exact Hm | ].
    unfold Rdiv. rewrite Rmult_assoc, Rinv_l by lra. lra.
  - apply Rmult_le_reg_r with (r := IZR UInt32.UINT_MAX); [ exact Hm | ].
    unfold Rdiv. rewrite Rmult_assoc, Rinv_l by lra. lra.
Qed.

(** The draw is below 1 exactly when the new state is not [UINT_MAX]. *)
Lemma call_below_one (s : fast_rng.state) :
  fast_rng.advance s <> UInt32.UINT_MAX -> (fst (fast_rng.call s) < 1)%R.
Proof.
  intros Hne. rewrite call_value. assert (Hr := advance_range s).
  assert (H1 : (IZR (fast_rng.advance s) < IZR UInt32.UINT_MAX)%R)
    by (apply IZR_lt; unfold UInt32.UINT_MAX in *; lia).
  assert (Hm : (0 < IZR UInt32.UINT_MAX)%R) by (apply IZR_lt; reflexivity).
  apply Rmult_lt_reg_r with (r := IZR UInt32.UINT_MAX); [ exact Hm | ].
  unfold Rdiv. rewrite Rmult_assoc, Rinv_l by lra. lra.
Qed.

Lemma draw_positive (n : nat) (s : fast_rng.state) :
  0 < s < 2 ^ 32 -> (0 < fast_rng.draw n s)%R.
Proof.
  intros Hs. unfold fast_rng.draw. rewrite call_value.
  assert (Ha := advance_nonzero _ (after_nonzero n s Hs)).
  apply Rdiv_lt_0_compat; apply IZR_lt; [ lia | reflexivity ].
Qed.

Section Construction.
Context `{Collaborators}.

Lemma make_nonzero (p : Vec3) (seed : Z) : 0 < fast_rng.make p seed < 2 ^ 32.
Proof.
  unfold fast_rng.make.
  set (h := UInt32.unsigned _).
  assert (Hh : 0 <= h < 2 ^ 32) by apply unsigned_range.
  destruct (Z.eqb_spec h 0); lia.
Qed.

(** C10.  The state is non-zero after construction and stays non-zero
    (and within 32 bits) after any number of draws; the next step keeps it
    non-zero as well, and every draw of the stream is strictly positive,
    so the stream never collapses to the all-zero sequence.  The reason
    is that the multiplier is odd: the step maps every non-zero 32-bit
    state to a non-zero one. *)
Theorem fast_rng_state_never_zero (p : Vec3) (seed : Z) (n : nat) :
  0 < fast_rng.make p seed < 2 ^ 32 /\
  0 < fast_rng.after n (fast_rng.make p seed) < 2 ^ 32 /\
  0 < snd (fast_rng.call (fast_rng.after n (fast_rng.make p seed))) < 2 ^ 32 /\
  (0 < fast_rng.draw n (fast_rng.make p seed))%R /\
  Z.odd fast_rng.multiplier = true /\
  (forall s, 0 < s < 2 ^ 32 -> 0 < (s * 3039177861) mod 2 ^ 32 < 2 ^ 32).
Proof.
  assert (Hm := make_nonzero p seed).
  assert (Ha := after_nonzero n _ Hm).
  split; [ exact Hm | ]. split; [ exact Ha | ].
  split; [ | split; [ | split ] ].
  - rewrite call_state. apply advance_nonzero. exact Ha.
  - apply draw_positive. exact Hm.
  - exact multiplier_odd.
  - intros s Hs. exact (advance_nonzero s Hs).
Qed.

End Construction.

Section Forced.
Context `{Collaborators}.

(** A zero hash is replaced by 1; any other hash is kept. *)
Lemma make_cases (p : Vec3) (seed : Z) :
  let h := UInt32.unsigned
             (inthash [ UInt32.unsigned (quick_floor (x3 p));
                        UInt32.unsigned (quick_floor (y3 p));
                        UInt32.unsigned (quick_floor (z3 p));
                        UInt32.unsigned seed ]) in
  (h = 0 /\ fast_rng.make p seed = 1) \/ (h <> 0 /\ fast_rng.make p seed = h).
Proof.
  intros h. unfold fast_rng.make. fold h.
  destruct (Z.eqb_spec h 0); [ left | right ]; split; auto.
Qed.

End Forced.

(** ** The draw of [operator()] *)

Lemma advance_bad_state : fast_rng.advance 3108836275 = UInt32.UINT_MAX.
Proof. reflexivity. Qed.

(** C5.  From the state 3108836275 the step gives [UINT_MAX] (the state
    is advanced by the multiplier modulo 2^32, as claimed), and the value
    returned is exactly 1, not below 1: in exact arithmetic
    [UINT_MAX / UINT_MAX], and in binary32 as well, where both [m_seed]
    and [UINT_MAX] round to 2^32. *)
Theorem fast_rng_call_returns_one :
  fast_rng.call 3108836275 = (1%R, UInt32.UINT_MAX) /\
  Binary32.call 3108836275 = (Binary32.one, UInt32.UINT_MAX) /\
  UInt32.UINT_MAX = (3108836275 * 3039177861) mod 2 ^ 32.
Proof.
  split; [ | split ].
  - unfold fast_rng.call. rewrite advance_bad_state. f_equal.
    unfold UInt32.UINT_MAX. field.
  - vm_compute. reflexivity.
  - reflexivity.
Qed.

(** What does hold of every state: the state is advanced by the
    multiplier modulo 2^32 and the draw lies in the closed interval
    [0, 1]. *)
Lemma fast_rng_call_closed_interval (s : fast_rng.state) :
  snd (fast_rng.call s) = (s * 3039177861) mod 2 ^ 32 /\
  (0 <= fst (fast_rng.call s) <= 1)%R.
Proof. split; [ reflexivity | apply call_bounds ]. Qed.

(** In binary32 every new state from [0xFFFFFF80] on is drawn as 1.0f. *)
Lemma binary32_rounds_up_to_one :
  Binary32.div (Binary32.of_unsigned 4294967168) (Binary32.of_unsigned UInt32.UINT_MAX)
    = Binary32.one /\
  Binary32.div (Binary32.of_unsigned 4294967167) (Binary32.of_unsigned UInt32.UINT_MAX)
    = S754_finite false 16777215 (-24).
Proof. split; vm_compute; reflexivity. Qed.

(** ** Determinism of the per-cell generator *)

Lemma draws_length (n : nat) (s : fast_rng.state) : length (fast_rng.draws n s) = n.
Proof.
  revert s. induction n as [ | n IH ]; intros s; simpl; [ reflexivity | ].
  rewrite IH. reflexivity.
Qed.

Lemma draws_nth (n k : nat) (s : fast_rng.state) :
  (k < n)%nat -> nth k (fast_rng.draws n s) 0%R = fast_rng.draw k s.
Proof.
  revert k s. induction n as [ | n IH ]; intros k s Hk; [ lia | ].
  destruct k as [ | k ]; simpl.
  - reflexivity.
  - rewrite IH by lia. reflexivity.
Qed.


(** The floor of a sample point does not look at its derivatives. *)
Lemma floor_ignores_derivatives (v d1 d2 e1 e2 : Vec3) :
  floor (mkDual2 v d1 d2) = floor (mkDual2 v e1 e2).
Proof. reflexivity. Qed.

Section Determinism.
Context `{Collaborators}.

Lemma make_is_cell_rng (p : Vec3) (seed : Z) :
  fast_rng.make p seed =
  fast_rng.cell_rng (quick_floor (x3 p)) (quick_floor (y3 p)) (quick_floor (z3 p)) seed.
Proof. reflexivity. Qed.



End Determinism.

#[local] Open Scope R_scope.







(** The hypothesis on [quick_floor] is needed: with a truncating
    conversion, -1 and -1/2 have the same floor and get different
    generators. *)
Lemma quick_floor_must_be_a_floor :
  floor (mkDual2 (mkVec3 (-1) 0 0) Imath.zero3 Imath.zero3)
    = floor (mkDual2 (mkVec3 (- (1 / 2)) 0 0) Imath.zero3 Imath.zero3) /\
  @fast_rng.make truncating_collaborators (mkVec3 (-1) 0 0) 0%Z = 4294967294%Z /\
  @fast_rng.make truncating_collaborators (mkVec3 (- (1 / 2)) 0 0) 0%Z = 4294967295%Z.
Proof.
  assert (Hf1 : Zfloor (-1) = (-1)%Z) by (apply Zfloor_eq; lra).
  assert (Hf2 : Zfloor (- (1 / 2)) = (-1)%Z) by (apply Zfloor_eq; lra).
  assert (Hc1 : Zceil (-1) = (-1)%Z).
  { unfold Zceil. rewrite (Zfloor_eq 1); [ reflexivity | lra ]. }
  assert (Hc2 : Zceil (- (1 / 2)) = 0%Z).
  { unfold Zceil. rewrite (Zfloor_eq 0); [ reflexivity | lra ]. }
  split; [ | split ].
  - unfold floor, floorf. cbn [val x3 y3 z3]. rewrite Hf1, Hf2. reflexivity.
  - unfold fast_rng.make. cbn [quick_floor inthash truncating_collaborators x3 y3 z3 nth].
    destruct (Rlt_dec (-1) 0) as [_ | Hn]; [ | lra ].
    rewrite Hc1. reflexivity.
  - unfold fast_rng.make. cbn [quick_floor inthash truncating_collaborators x3 y3 z3 nth].
    destruct (Rlt_dec (- (1 / 2)) 0) as [_ | Hn]; [ | lra ].
    rewrite Hc2. reflexivity.
Qed.

(** The cell (0, 0, 0) with seed 0, after three draws. *)
Lemma fast_rng_state_never_zero_witness :
  let make := @fast_rng.make toy_collaborators in
  let p := mkVec3 (1 / 2) (1 / 2) (1 / 2) in
  (0 < make p 0 < 2 ^ 32)%Z /\
  (0 < fast_rng.after 3 (make p 0%Z) < 2 ^ 32)%Z /\
  (0 < snd (fast_rng.call (fast_rng.after 3 (make p 0%Z))) < 2 ^ 32)%Z /\
  0 < fast_rng.draw 3 (make p 0%Z) /\
  Z.odd fast_rng.multiplier = true /\
  (forall s, (0 < s < 2 ^ 32)%Z -> (0 < (s * 3039177861) mod 2 ^ 32 < 2 ^ 32)%Z).
Proof.
  intros make p.
  exact (@fast_rng_state_never_zero toy_collaborators p 0%Z 3%nat).
Defined.

(** ** Knuth's loop in [poisson] *)

Lemma draw_bounds (k : nat) (s : fast_rng.state) : 0 <= fast_rng.draw k s <= 1.
Proof. unfold fast_rng.draw. apply call_bounds. Qed.

Lemma draw_S (k : nat) (s : fast_rng.state) :
  fast_rng.draw (S k) s = fst (fast_rng.call (fast_rng.advance (fast_rng.after k s))).
Proof. unfold fast_rng.draw. rewrite after_S. reflexivity. Qed.

Lemma product_bounds (n : nat) (s : fast_rng.state) : 0 <= fast_rng.product n s <= 1.
Proof.
  induction n as [ | n IH ]; simpl; [ lra | ].
  assert (Hd := draw_bounds n s). nra.
Qed.

Lemma below_one_bounds : 0 < below_one < 1.
Proof.
  unfold below_one, UInt32.UINT_MAX. simpl Z.sub. split.
  - apply Rdiv_lt_0_compat; apply IZR_lt; reflexivity.
  - apply Rmult_lt_reg_r with (r := 4294967295); [ lra | ].
    unfold Rdiv. rewrite Rmult_assoc, Rinv_l by lra. lra.
Qed.

Lemma draw_le_below_one (a : fast_rng.state) :
  fast_rng.advance a <> UInt32.UINT_MAX -> fst (fast_rng.call a) <= below_one.
Proof.
  intros Hne. rewrite call_value. assert (Hr := advance_range a).
  unfold below_one.
  assert (Hm : 0 < IZR UInt32.UINT_MAX) by (apply IZR_lt; reflexivity).
  apply Rmult_le_reg_r with (r := IZR UInt32.UINT_MAX); [ exact Hm | ].
  unfold Rdiv. rewrite !Rmult_assoc, Rinv_l by lra. rewrite !Rmult_1_r.
  apply IZR_le. unfold UInt32.UINT_MAX in *. lia.
Qed.

(** [UINT_MAX] is not a fixed point of the step: of two consecutive
    draws, at least one is below 1. *)
Lemma two_draws_shrink (k : nat) (s : fast_rng.state) :
  fast_rng.draw k s * fast_rng.draw (S k) s <= below_one.
Proof.
  assert (H0 := draw_bounds k s). assert (H1 := draw_bounds (S k) s).
  assert (Hb := below_one_bounds).
  destruct (Z.eq_dec (fast_rng.advance (fast_rng.after k s)) UInt32.UINT_MAX) as [He | Hne].
  - assert (H2 : fast_rng.draw (S k) s <= below_one).
    { rewrite draw_S. apply draw_le_below_one. rewrite He. discriminate. }
    nra.
  - assert (H2 : fast_rng.draw k s <= below_one).
    { unfold fast_rng.draw. apply draw_le_below_one. exact Hne. }
    nra.
Qed.

Lemma product_even_le (j : nat) (s : fast_rng.state) :
  fast_rng.product (2 * j) s <= below_one ^ j.
Proof.
  induction j as [ | j IH ]; [ simpl; lra | ].
  replace (2 * S j)%nat with (S (S (2 * j))) by lia.
  cbn [fast_rng.product pow].
  assert (Hp := product_bounds (2 * j) s).
  assert (Ht := two_draws_shrink (2 * j) s).
  assert (H0 := draw_bounds (2 * j) s). assert (H1 := draw_bounds (S (2 * j)) s).
  assert (Hb := below_one_bounds).
  assert (Hpow : 0 <= below_one ^ j) by (apply pow_le; lra).
  rewrite Rmult_assoc.
  apply Rle_trans with (r2 := fast_rng.product (2 * j) s * below_one).
  - apply Rmult_le_compat_l; lra.
  - rewrite (Rmult_comm below_one). apply Rmult_le_compat_r; lra.
Qed.

(** The running product falls below any positive threshold. *)
Lemma product_reaches (g : R) (s : fast_rng.state) :
  0 < g -> exists N : nat, fast_rng.product (S N) s <= g.
Proof.
  intros Hg. assert (Hb := below_one_bounds).
  destruct (pow_lt_1_zero below_one) with (y := g) as [N HN];
    [ rewrite Rabs_pos_eq; lra | exact Hg | ].
  exists (S (2 * N)).
  replace (S (S (2 * N))) with (2 * S N)%nat by lia.
  apply Rle_trans with (r2 := below_one ^ S N); [ apply product_even_le | ].
  specialize (HN (S N) ltac:(lia)).
  rewrite Rabs_pos_eq in HN by (apply pow_le; lra). lra.
Qed.

Lemma incr_of_nat (k : nat) :
  UInt32.incr (UInt32.unsigned (Z.of_nat k)) = UInt32.unsigned (Z.of_nat (S k)).
Proof.
  unfold UInt32.incr, UInt32.unsigned, UInt32.modulus.
  rewrite Zplus_mod_idemp_l. f_equal. lia.
Qed.

(** The loop, entered after [k + 1] draws with the counter at [k], stops
    at the first index from [k] on whose running product is at most [g]. *)
Lemma poisson_loop_stops (g : R) (s : fast_rng.state) (d k : nat) :
  fast_rng.product (S (k + d)) s <= g ->
  exists n : nat,
    (k <= n <= k + d)%nat /\
    fast_rng.product (S n) s <= g /\
    (forall j, (k <= j < n)%nat -> fast_rng.product (S j) s > g) /\
    forall fuel, (d < fuel)%nat ->
      fast_rng.poisson_loop fuel g (fast_rng.product (S k) s)
          (UInt32.unsigned (Z.of_nat k)) (fast_rng.after (S k) s)
      = Some (UInt32.to_int (UInt32.unsigned (Z.of_nat n)), fast_rng.after (S n) s).
Proof.
  revert k. induction d as [ | d IH ]; intros k Hk.
  - exists k. rewrite Nat.add_0_r in Hk. repeat split; try lia; try exact Hk.
    intros [ | fuel ] Hf; [ lia | ]. cbn [fast_rng.poisson_loop].
    destruct (Rgt_dec (fast_rng.product (S k) s) g) as [Hgt | _]; [ lra | reflexivity ].
  - destruct (Rgt_dec (fast_rng.product (S k) s) g) as [Hgt | Hle].
    + replace (k + S d)%nat with (S k + d)%nat in Hk by lia.
      destruct (IH (S k) Hk) as (n & Hn & Hp & Hmin & Hrun).
      exists n. repeat split; try lia; try exact Hp.
      * intros j Hj. destruct (Nat.eq_dec j k) as [-> | Hjk]; [ exact Hgt | ].
        apply Hmin. lia.
      * intros [ | fuel ] Hf; [ lia | ]. cbn [fast_rng.poisson_loop].
        destruct (Rgt_dec (fast_rng.product (S k) s) g) as [_ | Hn']; [ | contradiction ].
        rewrite incr_of_nat.
        specialize (Hrun fuel ltac:(lia)).
        rewrite (after_S (S k)) in Hrun.
        exact Hrun.
    + exists k. repeat split; try lia; try lra.
      intros [ | fuel ] Hf; [ lia | ]. cbn [fast_rng.poisson_loop].
      destruct (Rgt_dec (fast_rng.product (S k) s) g) as [Hgt | _]; [ contradiction | reflexivity ].
Qed.

Lemma to_int_small (n : Z) :
  (0 <= n < 2 ^ 31)%Z -> UInt32.to_int (UInt32.unsigned n) = n.
Proof.
  intros Hn. rewrite unsigned_small by lia. unfold UInt32.to_int.
  destruct (Z.ltb_spec n (2 ^ 31)); lia.
Qed.

Lemma poisson_enters_loop (fuel : nat) (mean : float) (s : fast_rng.state) :
  fast_rng.poisson fuel mean s
  = fast_rng.poisson_loop fuel (exp (- mean)) (fast_rng.product 1 s)
      (UInt32.unsigned (Z.of_nat 0)) (fast_rng.after 1 s).
Proof.
  unfold fast_rng.poisson, fast_rng.call.
  cbn [fast_rng.product fast_rng.after]. unfold fast_rng.draw, fast_rng.call.
  cbn [fast_rng.after fst]. rewrite Rmult_1_l. reflexivity.
Qed.

(** C6.  For a mean [m > 0], with enough fuel [poisson] returns the
    least [n] for which the product of the first [n + 1] draws of the
    stream is at most [exp (- m)]; the generator it leaves is the one
    after exactly [n + 1] draws, so the next draw is draw [n + 1] of the
    same stream.  The count goes through the source's [unsigned int]
    counter and its conversion to [int]; it is [n] itself whenever
    [n < 2^31]. *)
Theorem poisson_knuth (mean : float) (s : fast_rng.state) :
  0 < mean ->
  exists n : nat,
    fast_rng.product (S n) s <= exp (- mean) /\
    (forall j, (j < n)%nat -> fast_rng.product (S j) s > exp (- mean)) /\
    (exists fuel0, forall fuel, (fuel0 <= fuel)%nat ->
       fast_rng.poisson fuel mean s
       = Some (UInt32.to_int (UInt32.unsigned (Z.of_nat n)), fast_rng.after (S n) s)) /\
    ((Z.of_nat n < 2 ^ 31)%Z ->
       UInt32.to_int (UInt32.unsigned (Z.of_nat n)) = Z.of_nat n) /\
    fst (fast_rng.call (fast_rng.after (S n) s)) = fast_rng.draw (S n) s.
Proof.
  intros _.
  destruct (product_reaches (exp (- mean)) s (exp_pos _)) as [N HN].
  destruct (poisson_loop_stops (exp (- mean)) s N 0 HN) as (n & Hn & Hp & Hmin & Hrun).
  exists n. split; [ exact Hp | ]. split; [ | split; [ | split ] ].
  - intros j Hj. apply Hmin. lia.
  - exists (S N). intros fuel Hf. rewrite poisson_enters_loop.
    apply Hrun. lia.
  - intros Hlt. apply to_int_small. lia.
  - reflexivity.
Qed.

Lemma poisson_knuth_witness :
  0 < 1 /\
  exists n : nat,
    fast_rng.product (S n) 1%Z <= exp (- 1) /\
    (forall j, (j < n)%nat -> fast_rng.product (S j) 1%Z > exp (- 1)) /\
    (exists fuel0, forall fuel, (fuel0 <= fuel)%nat ->
       fast_rng.poisson fuel 1 1%Z
       = Some (UInt32.to_int (UInt32.unsigned (Z.of_nat n)), fast_rng.after (S n) 1%Z)) /\
    ((Z.of_nat n < 2 ^ 31)%Z ->
       UInt32.to_int (UInt32.unsigned (Z.of_nat n)) = Z.of_nat n) /\
    fst (fast_rng.call (fast_rng.after (S n) 1%Z)) = fast_rng.draw (S n) 1%Z.
Proof.
  split; [ lra | apply (poisson_knuth 1 1%Z); lra ].
Defined.

(** ** wrap *)

(** [float] is [R]: show it to [ring] and [field]. *)
Ltac as_reals := unfold float in *.

Lemma floorf_bound (x : float) : floorf x <= x < floorf x + 1.
Proof. unfold floorf. apply Zfloor_bound. Qed.

(** The clamp of the source, [if (period < 1.0f) period = 1.0f], is the
    maximum with 1. *)
Lemma clamp_is_max (p : float) : (if Rlt_dec p 1 then 1 else p) = Rmax 1 p.
Proof.
  destruct (Rlt_dec p 1) as [Hlt | Hge].
  - rewrite Rmax_left by lra. reflexivity.
  - rewrite Rmax_right by lra. reflexivity.
Qed.

Lemma clamped_period_ge_1 (period : float) : 1 <= clamped_period period.
Proof. unfold clamped_period. apply Rmax_l. Qed.

Lemma clamped_period_integer (period : float) :
  exists k : Z, (1 <= k)%Z /\ clamped_period period = IZR k.
Proof.
  unfold clamped_period, floorf.
  destruct (Rle_dec 1 (IZR (Zfloor period))) as [Hle | Hlt].
  - exists (Zfloor period). split; [ apply le_IZR; exact Hle | ].
    rewrite Rmax_right by lra. reflexivity.
  - exists 1%Z. split; [ lia | ]. rewrite Rmax_left by lra. reflexivity.
Qed.

Lemma wrap_spec_aux (s period : float) :
  wrap s period = s - clamped_period period * floorf (s / clamped_period period) /\
  1 <= clamped_period period.
Proof.
  split; [ | apply clamped_period_ge_1 ].
  unfold wrap, clamped_period. rewrite clamp_is_max. reflexivity.
Qed.

(** C9.  [wrap (s, period)] floors the period and clamps it to at least
    1 (whatever the period, also below 1, zero or negative: there is no
    rejection, the function is total), and returns
    [s - period * floor (s / period)] for that period; the [Vec3]
    overload does so on each of the three components. *)
Theorem wrap_spec (s period : float) (sv pv : Vec3) :
  wrap s period
    = s - clamped_period period * floorf (s / clamped_period period) /\
  clamped_period period = Rmax 1 (floorf period) /\
  1 <= clamped_period period /\
  wrap3 sv pv = mkVec3 (wrap (x3 sv) (x3 pv)) (wrap (y3 sv) (y3 pv)) (wrap (z3 sv) (z3 pv)) /\
  x3 (wrap3 sv pv)
    = x3 sv - clamped_period (x3 pv) * floorf (x3 sv / clamped_period (x3 pv)) /\
  y3 (wrap3 sv pv)
    = y3 sv - clamped_period (y3 pv) * floorf (y3 sv / clamped_period (y3 pv)) /\
  z3 (wrap3 sv pv)
    = z3 sv - clamped_period (z3 pv) * floorf (z3 sv / clamped_period (z3 pv)).
Proof.
  assert (Hw : forall a p,
             wrap a p = a - clamped_period p * floorf (a / clamped_period p))
    by (intros a p; apply wrap_spec_aux).
  repeat split.
  - apply Hw.
  - apply clamped_period_ge_1.
  - cbn [wrap3 x3]. apply Hw.
  - cbn [wrap3 y3]. apply Hw.
  - cbn [wrap3 z3]. apply Hw.
Qed.

(** On real numbers the wrapped coordinate lies in [0, period).  In
    single precision the last subtraction can round up to the period
    itself (for [s] just below zero), so this bound is a fact of the
    idealised arithmetic only. *)
Lemma wrap_range (s period : R) : 0 <= wrap s period < clamped_period period.
Proof.
  destruct (wrap_spec_aux s period) as [Hw Hp].
  rewrite Hw. set (p := clamped_period period) in *.
  assert (Hf := floorf_bound (s / p)).
  assert (Hs : s = s / p * p) by (field; lra).
  split; nra.
Qed.

(** A period below 1 is clamped: [wrap] then reduces modulo 1. *)
Lemma wrap_small_period (s period : R) :
  period < 1 -> wrap s period = s - floorf s.
Proof.
  intros Hp. destruct (wrap_spec_aux s period) as [Hw _]. rewrite Hw.
  assert (Hc : clamped_period period = 1).
  { unfold clamped_period. apply Rmax_left.
    assert (Hf := floorf_bound period). lra. }
  rewrite Hc. replace (s / 1) with s by field. as_reals. ring.
Qed.

(** ** Dual numbers and derivatives

    Each operation of the dual arithmetic carries the corresponding
    operation on functions: the value component is the value, the two
    partials are the derivatives along the two sampling parameters. *)

Lemma derivable_pt_lim_value (f : R -> R) (x l l' : R) :
  derivable_pt_lim f x l -> l = l' -> derivable_pt_lim f x l'.
Proof. intros Hd <-. exact Hd. Qed.

Lemma derivable_pt_lim_ext (f g : R -> R) (x l : R) :
  (forall y, f y = g y) -> derivable_pt_lim f x l -> derivable_pt_lim g x l.
Proof.
  intros Hfg Hd eps Heps. destruct (Hd eps Heps) as [delta Hdelta].
  exists delta. intros h Hh0 Hh. rewrite <- !Hfg. apply Hdelta; assumption.
Qed.

Lemma carries_ext (f g : R -> R -> R) (u v : R) (d : Dual.D2) :
  (forall s t, f s t = g s t) -> carries f u v d -> carries g u v d.
Proof.
  intros Hfg (Hv & Hx & Hy). repeat split.
  - rewrite Hv. apply Hfg.
  - apply derivable_pt_lim_ext with (f := fun s => f s v); [ intros; apply Hfg | exact Hx ].
  - apply derivable_pt_lim_ext with (f := fun t => f u t); [ intros; apply Hfg | exact Hy ].
Qed.

Lemma carries_same (f : R -> R -> R) (u v : R) (d d' : Dual.D2) :
  val d = val d' -> dx d = dx d' -> dy d = dy d' ->
  carries f u v d -> carries f u v d'.
Proof.
  intros Hv Hx Hy (H1 & H2 & H3). unfold carries.
  rewrite <- Hv, <- Hx, <- Hy. auto.
Qed.

Lemma carries_const (c u v : R) : carries (fun _ _ => c) u v (Dual.const c).
Proof.
  repeat split; cbn [Dual.const dx dy]; apply derivable_pt_lim_const.
Qed.

Lemma carries_add (f g : R -> R -> R) (u v : R) (a b : Dual.D2) :
  carries f u v a -> carries g u v b ->
  carries (fun s t => f s t + g s t) u v (Dual.add a b).
Proof.
  intros (Hfa & Hfx & Hfy) (Hgb & Hgx & Hgy). repeat split; cbn [Dual.add val dx dy].
  - rewrite Hfa, Hgb. reflexivity.
  - exact (derivable_pt_lim_plus _ _ _ _ _ Hfx Hgx).
  - exact (derivable_pt_lim_plus _ _ _ _ _ Hfy Hgy).
Qed.

Lemma carries_mul (f g : R -> R -> R) (u v : R) (a b : Dual.D2) :
  carries f u v a -> carries g u v b ->
  carries (fun s t => f s t * g s t) u v (Dual.mul a b).
Proof.
  intros (Hfa & Hfx & Hfy) (Hgb & Hgx & Hgy). repeat split; cbn [Dual.mul val dx dy].
  - rewrite Hfa, Hgb. reflexivity.
  - apply derivable_pt_lim_value with (1 := derivable_pt_lim_mult _ _ _ _ _ Hfx Hgx).
    rewrite Hfa, Hgb. as_reals. ring.
  - apply derivable_pt_lim_value with (1 := derivable_pt_lim_mult _ _ _ _ _ Hfy Hgy).
    rewrite Hfa, Hgb. as_reals. ring.
Qed.

Lemma carries_smul (c : R) (f : R -> R -> R) (u v : R) (a : Dual.D2) :
  carries f u v a -> carries (fun s t => c * f s t) u v (Dual.smul c a).
Proof.
  intros (Hfa & Hfx & Hfy). repeat split; cbn [Dual.smul val dx dy].
  - rewrite Hfa. reflexivity.
  - exact (derivable_pt_lim_scal _ c _ _ Hfx).
  - exact (derivable_pt_lim_scal _ c _ _ Hfy).
Qed.

Lemma carries_muls (c : R) (f : R -> R -> R) (u v : R) (a : Dual.D2) :
  carries f u v a -> carries (fun s t => f s t * c) u v (Dual.muls a c).
Proof.
  intros Ha. apply carries_ext with (f := fun s t => c * f s t).
  - intros s t. ring.
  - apply carries_same with (d := Dual.smul c a);
      [ | | | apply carries_smul; exact Ha ];
      cbn [Dual.smul Dual.muls val dx dy]; as_reals; ring.
Qed.

Lemma carries_ssub (c : R) (f : R -> R -> R) (u v : R) (a : Dual.D2) :
  carries f u v a -> carries (fun s t => c - f s t) u v (Dual.ssub c a).
Proof.
  intros (Hfa & Hfx & Hfy). repeat split; cbn [Dual.ssub val dx dy].
  - rewrite Hfa. reflexivity.
  - apply derivable_pt_lim_value
      with (1 := derivable_pt_lim_minus _ _ _ _ _ (derivable_pt_lim_const c u) Hfx).
    as_reals. ring.
  - apply derivable_pt_lim_value
      with (1 := derivable_pt_lim_minus _ _ _ _ _ (derivable_pt_lim_const c v) Hfy).
    as_reals. ring.
Qed.

Lemma carries_exp (f : R -> R -> R) (u v : R) (a : Dual.D2) :
  carries f u v a -> carries (fun s t => exp (f s t)) u v (Dual.exp a).
Proof.
  intros (Hfa & Hfx & Hfy). repeat split; cbn [Dual.exp val dx dy].
  - rewrite Hfa. reflexivity.
  - apply derivable_pt_lim_value
      with (1 := derivable_pt_lim_comp _ _ _ _ _ Hfx (derivable_pt_lim_exp (f u v))).
    rewrite Hfa. as_reals. ring.
  - apply derivable_pt_lim_value
      with (1 := derivable_pt_lim_comp _ _ _ _ _ Hfy (derivable_pt_lim_exp (f u v))).
    rewrite Hfa. as_reals. ring.
Qed.

Lemma carries_cos (f : R -> R -> R) (u v : R) (a : Dual.D2) :
  carries f u v a -> carries (fun s t => cos (f s t)) u v (Dual.cos a).
Proof.
  intros (Hfa & Hfx & Hfy). repeat split; cbn [Dual.cos val dx dy].
  - rewrite Hfa. reflexivity.
  - apply derivable_pt_lim_value
      with (1 := derivable_pt_lim_comp _ _ _ _ _ Hfx (derivable_pt_lim_cos (f u v))).
    rewrite Hfa. as_reals. ring.
  - apply derivable_pt_lim_value
      with (1 := derivable_pt_lim_comp _ _ _ _ _ Hfy (derivable_pt_lim_cos (f u v))).
    rewrite Hfa. as_reals. ring.
Qed.

Lemma carries_first (u v : R) : carries (fun s _ => s) u v (mkDual2 u 1 0).
Proof.
  repeat split; cbn [val dx dy];
    [ apply derivable_pt_lim_id | apply derivable_pt_lim_const ].
Qed.

Lemma carries_second (u v : R) : carries (fun _ t => t) u v (mkDual2 v 0 1).
Proof.
  repeat split; cbn [val dx dy];
    [ apply derivable_pt_lim_const | apply derivable_pt_lim_id ].
Qed.

Lemma carries_dot3 (X Y Z : R -> R -> R) (u v : R) (x : Dual2 Vec3) :
  carries X u v (comp_x x) -> carries Y u v (comp_y x) -> carries Z u v (comp_z x) ->
  carries (fun s t => Imath.dot3 (mkVec3 (X s t) (Y s t) (Z s t))
                                 (mkVec3 (X s t) (Y s t) (Z s t)))
          u v (Dual.dot3 x x).
Proof.
  intros HX HY HZ.
  apply carries_same
    with (d := Dual.add (Dual.add (Dual.mul (comp_x x) (comp_x x))
                                  (Dual.mul (comp_y x) (comp_y x)))
                        (Dual.mul (comp_z x) (comp_z x))).
  - reflexivity.
  - unfold Dual.dot3, Imath.dot3. cbn. as_reals. ring.
  - unfold Dual.dot3, Imath.dot3. cbn. as_reals. ring.
  - unfold Imath.dot3. cbn [x3 y3 z3].
    repeat apply carries_add; apply carries_mul; assumption.
Qed.

Lemma carries_sdot3 (omega : Vec3) (X Y Z : R -> R -> R) (u v : R) (x : Dual2 Vec3) :
  carries X u v (comp_x x) -> carries Y u v (comp_y x) -> carries Z u v (comp_z x) ->
  carries (fun s t => Imath.dot3 omega (mkVec3 (X s t) (Y s t) (Z s t)))
          u v (Dual.sdot3 omega x).
Proof.
  intros HX HY HZ.
  apply carries_same
    with (d := Dual.add (Dual.add (Dual.smul (x3 omega) (comp_x x))
                                  (Dual.smul (y3 omega) (comp_y x)))
                        (Dual.smul (z3 omega) (comp_z x))); try reflexivity.
  unfold Imath.dot3. cbn [x3 y3 z3].
  repeat apply carries_add; apply carries_smul; assumption.
Qed.

(** ** gabor_kernel *)

(** The value the kernel returns, for any inputs. *)
Lemma gabor_kernel_value (weight : Dual.D2) (omega : Vec3) (phi : Dual.D2)
    (b : float) (x : Dual2 Vec3) :
  val (gabor_kernel weight omega phi b x)
  = val weight * exp (- PI * b ^ 2 * Imath.dot3 (val x) (val x))
      * cos (2 * PI * Imath.dot3 omega (val x) + val phi).
Proof.
  unfold gabor_kernel, M_PI, M_TWO_PI. cbn -[pow].
  replace (- PI * (b * b)) with (- PI * b ^ 2) by (as_reals; ring).
  reflexivity.
Qed.

(** The same for the [Vec2] instance of the template. *)
Lemma gabor_kernel_value_2d (weight : Dual.D2) (omega : Vec2) (phi : Dual.D2)
    (b : float) (x : Dual2 Vec2) :
  val (gabor_kernel weight omega phi b x)
  = val weight * exp (- PI * b ^ 2 * Imath.dot2 (val x) (val x))
      * cos (2 * PI * Imath.dot2 omega (val x) + val phi).
Proof.
  unfold gabor_kernel, M_PI, M_TWO_PI. cbn -[pow].
  replace (- PI * (b * b)) with (- PI * b ^ 2) by (as_reals; ring).
  reflexivity.
Qed.

(** C7.  Let the weight, the phase and the three coordinates of the
    position be functions of the two sampling parameters, carried at
    [(u, v)] by the dual numbers handed to [gabor_kernel].  Then the value
    returned is [weight * exp (- pi bandwidth^2 |x|^2) * cos (2 pi
    (omega . x) + phase)] at [(u, v)], and the two partials returned are
    the derivatives of that expression along the first and the second
    parameter (limits of difference quotients, not difference quotients
    at a finite step). *)
Theorem gabor_kernel_exact (W Phi X Y Z : R -> R -> R) (u v : R)
    (weight : Dual.D2) (omega : Vec3) (phi : Dual.D2) (b : float) (x : Dual2 Vec3) :
  carries W u v weight ->
  carries Phi u v phi ->
  carries X u v (comp_x x) ->
  carries Y u v (comp_y x) ->
  carries Z u v (comp_z x) ->
  val (gabor_kernel weight omega phi b x)
    = gabor_value (val weight) omega (val phi) b (val x) /\
  carries (fun s t => gabor_value (W s t) omega (Phi s t) b
                        (mkVec3 (X s t) (Y s t) (Z s t)))
          u v (gabor_kernel weight omega phi b x).
Proof.
  intros HW HPhi HX HY HZ. split.
  - rewrite gabor_kernel_value. reflexivity.
  - unfold gabor_kernel, gabor_value, M_PI, M_TWO_PI.
    apply carries_mul; [ apply carries_mul; [ exact HW | ] | ].
    + apply carries_exp.
      apply carries_ext
        with (f := fun s t => - PI * (b * b) *
                     Imath.dot3 (mkVec3 (X s t) (Y s t) (Z s t))
                                (mkVec3 (X s t) (Y s t) (Z s t))).
      * intros s t. as_reals. ring.
      * apply carries_smul. apply carries_dot3; assumption.
    + apply carries_cos. apply carries_add; [ | exact HPhi ].
      apply carries_smul. apply carries_sdot3; assumption.
Qed.

(** A unit weight and no phase, sampled at the origin along the first
    two axes. *)
Lemma gabor_kernel_exact_witness :
  let x := mkDual2 (mkVec3 0 0 0) (mkVec3 1 0 0) (mkVec3 0 1 0) in
  let omega := mkVec3 1 0 0 in
  val (gabor_kernel (Dual.const 1) omega (Dual.const 0) 1 x)
    = gabor_value 1 omega 0 1 (val x) /\
  carries (fun s t => gabor_value 1 omega 0 1 (mkVec3 s t 0))
          0 0 (gabor_kernel (Dual.const 1) omega (Dual.const 0) 1 x).
Proof.
  intros x omega.
  apply (gabor_kernel_exact (fun _ _ => 1) (fun _ _ => 0)
           (fun s _ => s) (fun _ t => t) (fun _ _ => 0) 0 0
           (Dual.const 1) omega (Dual.const 0) 1 x).
  - apply carries_const.
  - apply carries_const.
  - apply carries_first.
  - apply carries_second.
  - apply (carries_const 0).
Defined.

(** The [Vec2] instance of the template: same statement, with the
    two coordinates of the position. *)
Lemma gabor_kernel_exact_2d (W Phi X Y : R -> R -> R) (u v : R)
    (weight : Dual.D2) (omega : Vec2) (phi : Dual.D2) (b : float) (x : Dual2 Vec2) :
  carries W u v weight ->
  carries Phi u v phi ->
  carries X u v (comp2_x x) ->
  carries Y u v (comp2_y x) ->
  carries (fun s t => W s t
                      * exp (- PI * b ^ 2 * Imath.dot2 (mkVec2 (X s t) (Y s t))
                                                       (mkVec2 (X s t) (Y s t)))
                      * cos (2 * PI * Imath.dot2 omega (mkVec2 (X s t) (Y s t)) + Phi s t))
          u v (gabor_kernel weight omega phi b x).
Proof.
  intros HW HPhi HX HY.
  unfold gabor_kernel, M_PI, M_TWO_PI.
  apply carries_mul; [ apply carries_mul; [ exact HW | ] | ].
  - apply carries_exp.
    apply carries_ext
      with (f := fun s t => - PI * (b * b) *
                   (X s t * X s t + Y s t * Y s t)).
    + intros s t. unfold Imath.dot2. cbn [x2 y2]. as_reals. ring.
    + apply carries_smul.
      apply carries_same
        with (d := Dual.add (Dual.mul (comp2_x x) (comp2_x x))
                            (Dual.mul (comp2_y x) (comp2_y x))).
      * reflexivity.
      * cbn. unfold Imath.dot2. cbn [x2 y2]. as_reals. ring.
      * cbn. unfold Imath.dot2. cbn [x2 y2]. as_reals. ring.
      * apply carries_add; apply carries_mul; assumption.
  - apply carries_cos. apply carries_add; [ | exact HPhi ].
    apply carries_smul.
    apply carries_same
      with (d := Dual.add (Dual.smul (x2 omega) (comp2_x x))
                          (Dual.smul (y2 omega) (comp2_y x))); try reflexivity.
    unfold Imath.dot2. cbn [x2 y2].
    apply carries_add; apply carries_smul; assumption.
Qed.

(** ** slice_gabor_kernel_3d *)

(** C2.  The slicer returns the weight [w * exp (- pi a^2 d^2)], the
    first two components of [omega] unchanged, and the phase
    [phi - 2 pi d omega.x]; the partials that the weight and the phase
    carry are those of these two expressions (chain rule on [d]). *)
Theorem slice_gabor_kernel_3d_spec (d : Dual.D2) (w a : float) (omega : Vec3)
    (phi : float) :
  val (w_s (slice_gabor_kernel_3d d w a omega phi))
    = w * exp (- PI * a ^ 2 * val d ^ 2) /\
  omega_s (slice_gabor_kernel_3d d w a omega phi) = mkVec2 (x3 omega) (y3 omega) /\
  val (phi_s (slice_gabor_kernel_3d d w a omega phi))
    = phi - 2 * PI * val d * x3 omega /\
  dx (w_s (slice_gabor_kernel_3d d w a omega phi))
    = w * exp (- PI * a ^ 2 * val d ^ 2) * (- PI * a ^ 2 * (2 * val d * dx d)) /\
  dy (w_s (slice_gabor_kernel_3d d w a omega phi))
    = w * exp (- PI * a ^ 2 * val d ^ 2) * (- PI * a ^ 2 * (2 * val d * dy d)) /\
  dx (phi_s (slice_gabor_kernel_3d d w a omega phi)) = - (2 * PI * dx d * x3 omega) /\
  dy (phi_s (slice_gabor_kernel_3d d w a omega phi)) = - (2 * PI * dy d * x3 omega).
Proof.
  unfold slice_gabor_kernel_3d, M_PI, M_TWO_PI. cbn -[pow].
  replace (- PI * (a * a) * (val d * val d)) with (- PI * a ^ 2 * val d ^ 2)
    by (as_reals; ring).
  repeat split; try reflexivity; as_reals; ring.
Qed.

(** The same through [carries]: when [d] carries a distance function
    [D], the sliced weight and phase carry the two expressions of [D]. *)
Lemma slice_gabor_kernel_3d_carries (D : R -> R -> R) (u v : R) (d : Dual.D2)
    (w a : float) (omega : Vec3) (phi : float) :
  carries D u v d ->
  carries (fun s t => w * exp (- PI * a ^ 2 * D s t ^ 2)) u v
          (w_s (slice_gabor_kernel_3d d w a omega phi)) /\
  carries (fun s t => phi - 2 * PI * D s t * x3 omega) u v
          (phi_s (slice_gabor_kernel_3d d w a omega phi)).
Proof.
  intros HD. unfold slice_gabor_kernel_3d, M_PI, M_TWO_PI. cbn [w_s phi_s]. split.
  - apply carries_smul. apply carries_exp.
    apply carries_ext with (f := fun s t => - PI * (a * a) * (D s t * D s t)).
    + intros s t. as_reals. ring.
    + apply carries_smul. apply carries_mul; exact HD.
  - apply carries_ssub. apply carries_muls. apply carries_smul. exact HD.
Qed.

(** ** make_orthonormals *)

Lemma dot3_self_nonneg (v : Vec3) : 0 <= Imath.dot3 v v.
Proof. unfold Imath.dot3. as_reals. nra. Qed.

Lemma dot3_self_pos (v : Vec3) : v <> Imath.zero3 -> 0 < Imath.dot3 v v.
Proof.
  intros Hv. destruct v as [x y z]. unfold Imath.dot3. cbn [x3 y3 z3]. as_reals.
  destruct (Rle_lt_dec (x * x + y * y + z * z) 0) as [Hle | Hlt]; [ | exact Hlt ].
  exfalso. apply Hv. unfold Imath.zero3.
  assert (x = 0) by nra. assert (y = 0) by nra. assert (z = 0) by nra.
  subst. reflexivity.
Qed.


Lemma cross_orthogonal_left (a b : Vec3) : Imath.dot3 a (Imath.cross a b) = 0.
Proof. unfold Imath.dot3, Imath.cross. cbn [x3 y3 z3]. as_reals. ring. Qed.

Lemma cross_orthogonal_right (a b : Vec3) : Imath.dot3 b (Imath.cross a b) = 0.
Proof. unfold Imath.dot3, Imath.cross. cbn [x3 y3 z3]. as_reals. ring. Qed.

(** Lagrange's identity. *)
Lemma cross_length (a b : Vec3) :
  Imath.dot3 (Imath.cross a b) (Imath.cross a b)
  = Imath.dot3 a a * Imath.dot3 b b - Imath.dot3 a b * Imath.dot3 a b.
Proof. unfold Imath.dot3, Imath.cross. cbn [x3 y3 z3]. as_reals. ring. Qed.

(** [a x (v x a) = v (a.a) - a (a.v)], dotted with [v]. *)
Lemma triple_product (v a : Vec3) :
  Imath.dot3 v (Imath.cross a (Imath.cross v a))
  = Imath.dot3 v v * Imath.dot3 a a - Imath.dot3 v a * Imath.dot3 v a.
Proof. unfold Imath.dot3, Imath.cross. cbn [x3 y3 z3]. as_reals. ring. Qed.

Lemma length3_pos (v : Vec3) : 0 < Imath.dot3 v v -> 0 < Imath.length3 v.
Proof. intros Hv. unfold Imath.length3. apply sqrt_lt_R0. exact Hv. Qed.

Lemma length3_sqr (v : Vec3) :
  Imath.length3 v * Imath.length3 v = Imath.dot3 v v.
Proof. unfold Imath.length3. apply sqrt_sqrt. apply dot3_self_nonneg. Qed.

Lemma normalize3_nonzero (v : Vec3) :
  0 < Imath.dot3 v v ->
  Imath.normalize3 v
  = mkVec3 (x3 v / Imath.length3 v) (y3 v / Imath.length3 v) (z3 v / Imath.length3 v).
Proof.
  intros Hv. unfold Imath.normalize3.
  assert (Hl := length3_pos v Hv).
  destruct (Req_dec_T (Imath.length3 v) 0) as [He | _]; [ lra | reflexivity ].
Qed.

Lemma normalize3_unit (v : Vec3) :
  0 < Imath.dot3 v v -> Imath.dot3 (Imath.normalize3 v) (Imath.normalize3 v) = 1.
Proof.
  intros Hv. rewrite normalize3_nonzero by exact Hv.
  assert (Hl := length3_pos v Hv). assert (Hs := length3_sqr v).
  set (l := Imath.length3 v) in *.
  unfold Imath.dot3 in *. cbn [x3 y3 z3]. as_reals.
  replace (x3 v / l * (x3 v / l) + y3 v / l * (y3 v / l) + z3 v / l * (z3 v / l))
    with ((x3 v * x3 v + y3 v * y3 v + z3 v * z3 v) / (l * l)) by (field; lra).
  rewrite Hs. field. lra.
Qed.

Lemma normalize3_dot (u v : Vec3) :
  0 < Imath.dot3 v v ->
  Imath.dot3 u (Imath.normalize3 v) = Imath.dot3 u v / Imath.length3 v.
Proof.
  intros Hv. rewrite normalize3_nonzero by exact Hv.
  assert (Hl := length3_pos v Hv).
  unfold Imath.dot3. cbn [x3 y3 z3]. as_reals. field. lra.
Qed.

Lemma normalize3_zero : Imath.normalize3 Imath.zero3 = Imath.zero3.
Proof.
  unfold Imath.normalize3.
  destruct (Req_dec_T (Imath.length3 Imath.zero3) 0) as [_ | Hne]; [ reflexivity | ].
  exfalso. apply Hne. unfold Imath.length3, Imath.dot3, Imath.zero3. cbn [x3 y3 z3].
  replace (0 * 0 + 0 * 0 + 0 * 0) with 0 by ring. apply sqrt_0.
Qed.

Lemma length3_unit (v : Vec3) : Imath.dot3 v v = 1 -> Imath.length3 v = 1.
Proof. intros Hv. unfold Imath.length3. rewrite Hv. apply sqrt_1. Qed.

Lemma abs_square (x : R) : x * x = Rabs x * Rabs x.
Proof. unfold Rabs. destruct (Rcase_abs x); ring. Qed.

(** The vector crossed with the unit [v] to get [a]: it is orthogonal to
    [v] and, thanks to the 0.9 test, never the zero vector. *)
Lemma first_orthogonal (n : Vec3) :
  Imath.dot3 n n = 1 ->
  let a0 := if Rlt_dec (Rabs (x3 n)) (9 / 10)
            then mkVec3 0 (z3 n) (- y3 n)
            else mkVec3 (- z3 n) 0 (x3 n) in
  Imath.dot3 n a0 = 0 /\ 0 < Imath.dot3 a0 a0.
Proof.
  intros Hn. unfold Imath.dot3 in Hn.
  destruct (Rlt_dec (Rabs (x3 n)) (9 / 10)) as [Hlt | Hge]; cbn zeta;
    unfold Imath.dot3; cbn [x3 y3 z3]; as_reals.
  - split; [ ring | ].
    assert (Hx : x3 n * x3 n < 1).
    { rewrite (abs_square (x3 n)). assert (H0 := Rabs_pos (x3 n)). nra. }
    nra.
  - split; [ ring | ].
    assert (Hx : 81 / 100 <= x3 n * x3 n).
    { rewrite (abs_square (x3 n)). assert (H0 := Rabs_pos (x3 n)). nra. }
    nra.
Qed.

(** What the builder returns, step by step. *)
Lemma make_orthonormals_unfold (v a0 b0 : Vec3) :
  let n := Imath.normalize3 v in
  let a1 := if Rlt_dec (Rabs (x3 n)) (9 / 10)
            then mkVec3 0 (z3 n) (- y3 n)
            else mkVec3 (- z3 n) 0 (x3 n) in
  make_orthonormals v a0 b0
  = {| out_v := n;
       out_a := Imath.normalize3 a1;
       out_b := Imath.cross n (Imath.normalize3 a1) |}.
Proof. reflexivity. Qed.

(** C8.  For a non-zero [v] the builder returns [v] normalised, and
    [(v, a, b)] are pairwise orthogonal, each of length 1, with
    [b = v x a]; the frame is right-handed ([v . (a x b) = 1]). *)
Theorem make_orthonormals_frame (v a0 b0 : Vec3) :
  v <> Imath.zero3 ->
  Imath.dot3 (out_v (make_orthonormals v a0 b0)) (out_a (make_orthonormals v a0 b0)) = 0 /\
  Imath.dot3 (out_v (make_orthonormals v a0 b0)) (out_b (make_orthonormals v a0 b0)) = 0 /\
  Imath.dot3 (out_a (make_orthonormals v a0 b0)) (out_b (make_orthonormals v a0 b0)) = 0 /\
  Imath.length3 (out_v (make_orthonormals v a0 b0)) = 1 /\
  Imath.length3 (out_a (make_orthonormals v a0 b0)) = 1 /\
  Imath.length3 (out_b (make_orthonormals v a0 b0)) = 1 /\
  out_b (make_orthonormals v a0 b0)
    = Imath.cross (out_v (make_orthonormals v a0 b0)) (out_a (make_orthonormals v a0 b0)) /\
  Imath.dot3 (out_v (make_orthonormals v a0 b0))
             (Imath.cross (out_a (make_orthonormals v a0 b0))
                          (out_b (make_orthonormals v a0 b0))) = 1 /\
  out_v (make_orthonormals v a0 b0)
    = mkVec3 (x3 v / Imath.length3 v) (y3 v / Imath.length3 v) (z3 v / Imath.length3 v).
Proof.
  intros Hv. assert (Hpos := dot3_self_pos v Hv).
  rewrite make_orthonormals_unfold. cbn zeta. cbn [out_v out_a out_b].
  assert (Hn := normalize3_unit v Hpos).
  set (n := Imath.normalize3 v) in *.
  destruct (first_orthogonal n Hn) as [Horth Ha1]. cbn zeta in Horth, Ha1.
  set (a1 := if Rlt_dec (Rabs (x3 n)) (9 / 10)
             then mkVec3 0 (z3 n) (- y3 n) else mkVec3 (- z3 n) 0 (x3 n)) in *.
  assert (Ha := normalize3_unit a1 Ha1).
  assert (Hna : Imath.dot3 n (Imath.normalize3 a1) = 0).
  { rewrite normalize3_dot by exact Ha1. rewrite Horth.
    assert (Hl := length3_pos a1 Ha1). as_reals. field. lra. }
  set (a := Imath.normalize3 a1) in *.
  assert (Hb : Imath.dot3 (Imath.cross n a) (Imath.cross n a) = 1).
  { rewrite cross_length, Hn, Ha, Hna. as_reals. ring. }
  repeat split.
  - exact Hna.
  - apply cross_orthogonal_left.
  - apply cross_orthogonal_right.
  - apply length3_unit. exact Hn.
  - apply length3_unit. exact Ha.
  - apply length3_unit. exact Hb.
  - rewrite triple_product, Hn, Ha, Hna. as_reals. ring.
  - unfold n. apply normalize3_nonzero. exact Hpos.
Qed.

Lemma x_axis_nonzero : mkVec3 1 0 0 <> Imath.zero3.
Proof. unfold Imath.zero3. intros Heq. injection Heq as Hx. lra. Qed.

Lemma make_orthonormals_frame_witness :
  let r := make_orthonormals (mkVec3 1 0 0) Imath.zero3 Imath.zero3 in
  Imath.dot3 (out_v r) (out_a r) = 0 /\
  Imath.dot3 (out_v r) (out_b r) = 0 /\
  Imath.dot3 (out_a r) (out_b r) = 0 /\
  Imath.length3 (out_v r) = 1 /\
  Imath.length3 (out_a r) = 1 /\
  Imath.length3 (out_b r) = 1 /\
  out_b r = Imath.cross (out_v r) (out_a r) /\
  Imath.dot3 (out_v r) (Imath.cross (out_a r) (out_b r)) = 1 /\
  out_v r = mkVec3 (1 / Imath.length3 (mkVec3 1 0 0))
                   (0 / Imath.length3 (mkVec3 1 0 0))
                   (0 / Imath.length3 (mkVec3 1 0 0)).
Proof.
  exact (make_orthonormals_frame (mkVec3 1 0 0) Imath.zero3 Imath.zero3 x_axis_nonzero).
Defined.

(** The zero vector is the degenerate input: all three outputs are zero. *)
Lemma make_orthonormals_zero (a0 b0 : Vec3) :
  make_orthonormals Imath.zero3 a0 b0
  = {| out_v := Imath.zero3; out_a := Imath.zero3; out_b := Imath.zero3 |}.
Proof.
  rewrite make_orthonormals_unfold. cbn zeta. rewrite normalize3_zero.
  assert (Ha : (if Rlt_dec (Rabs (x3 Imath.zero3)) (9 / 10)
                then mkVec3 0 (z3 Imath.zero3) (- y3 Imath.zero3)
                else mkVec3 (- z3 Imath.zero3) 0 (x3 Imath.zero3)) = Imath.zero3).
  { unfold Imath.zero3. cbn [x3 y3 z3].
    destruct (Rlt_dec (Rabs 0) (9 / 10)) as [_ | Hge].
    - f_equal. ring.
    - exfalso. apply Hge. rewrite Rabs_R0. lra. }
  rewrite Ha, normalize3_zero.
  unfold Imath.cross, Imath.zero3. cbn [x3 y3 z3]. f_equal. f_equal; ring.
Qed.

(** ** filter_gabor_kernel_2d on an isotropic footprint *)

Lemma scale_identity (c : R) : Matrix22.scale c Matrix22.identity = diag c.
Proof. unfold Matrix22.scale, Matrix22.identity, diag. cbn. f_equal; as_reals; ring. Qed.








Lemma footprint_denominator_pos (a s : R) : 0 < a -> 0 < s -> 0 < 1 + 2 * PI * a ^ 2 * s.
Proof.
  intros Ha Hs. assert (Hpi := PI_RGT_0).
  assert (Hprod : 0 < 2 * PI * a ^ 2 * s)
    by (apply Rmult_lt_0_compat; [ apply Rmult_lt_0_compat; [ lra | apply pow_lt; lra ] | lra ]).
  lra.
Qed.










(** ** Configuration errors *)

Lemma construct_singular (p : NoiseParams) :
  Matrix22.determinant (footprint p) <= 0 ->
  NoiseParams_construct p
  = inl (if Rle_dec (bandwidth p) 0 then NonPositiveBandwidth else SingularFootprint).
Proof.
  intros Hdet. unfold NoiseParams_construct.
  destruct (Rle_dec (bandwidth p) 0) as [Hb | Hb]; [ reflexivity | ].
  destruct (Rle_dec (Matrix22.determinant (footprint p)) 0) as [Hd | Hd];
    [ reflexivity | contradiction ].
Qed.

Lemma construct_ok (p : NoiseParams) (vp : ValidParams) :
  NoiseParams_construct p = inr vp -> params vp = p.
Proof.
  unfold NoiseParams_construct.
  destruct (Rle_dec (bandwidth p) 0) as [Hb | Hb]; [ discriminate | ].
  destruct (Rle_dec (Matrix22.determinant (footprint p)) 0) as [Hd | Hd]; [ discriminate | ].
  intros Heq. injection Heq as <-. reflexivity.
Qed.

(** [c_F_divisor] is what the filter divides by: the weight it returns
    is [1 / c_F_divisor] of the footprint, times the weight, times the
    two other factors of line 142 to 144. *)
Lemma w_f_uses_c_F_divisor (Sigma_f : Matrix22.t) (w : Dual.D2) (a : float)
    (omega : Vec2) (phi : Dual.D2) :
  let Sigma_G := Matrix22.scale (a * a / M_TWO_PI) Matrix22.identity in
  let Sigma_F := Matrix22.scale (1 / (4 * M_PI * M_PI)) (Matrix22.inverse Sigma_f) in
  val (w_f (filter_gabor_kernel_2d Sigma_f w a omega phi))
  = 1 / c_F_divisor Sigma_f * val w
    * (1 / c_F_divisor (Matrix22.add Sigma_G Sigma_F))
    * exp (- (1 / 2)
           * Imath.dot2 (Matrix22.mulVec (Matrix22.inverse (Matrix22.add Sigma_G Sigma_F))
                                         omega) omega).
Proof. reflexivity. Qed.

(** The divisor of line 139 vanishes exactly on the footprints that
    validation rejects. *)
Lemma c_F_divisor_zero (Sigma_f : Matrix22.t) :
  c_F_divisor Sigma_f = 0 <-> Matrix22.determinant Sigma_f <= 0.
Proof.
  unfold c_F_divisor, M_TWO_PI. assert (Hpi := PI_RGT_0). split.
  - intros Hz. destruct (Rle_lt_dec (Matrix22.determinant Sigma_f) 0) as [Hle | Hlt];
      [ exact Hle | ].
    apply sqrt_lt_R0 in Hlt. exfalso. as_reals. nra.
  - intros Hle. rewrite sqrt_neg_0 by exact Hle. as_reals. ring.
Qed.

(** C4.  A footprint covariance with a non-positive determinant is
    rejected when the parameters are constructed: construction returns a
    configuration error (the singular footprint itself when the bandwidth
    is positive), no validated parameters carry such a footprint, so the
    per-sample filtering is never entered with it, and an evaluation
    returns the construction's error whatever the impulses, before any of
    them is filtered.  The filter has no check of its own: on such a
    footprint the divisor of its line 139 is zero, and on validated
    parameters that divisor is positive and the per-sample path returns
    one filtered kernel per impulse, never an error. *)
Theorem singular_footprint_rejected_at_construction (p : NoiseParams) :
  Matrix22.determinant (footprint p) <= 0 ->
  (exists e, NoiseParams_construct p = inl e) /\
  (0 < bandwidth p -> NoiseParams_construct p = inl SingularFootprint) /\
  (forall vp : ValidParams, params vp <> p) /\
  (forall impulses, exists e,
     NoiseParams_construct p = inl e /\ evaluate_filtered p impulses = inl e) /\
  c_F_divisor (footprint p) = 0 /\
  (forall (q : NoiseParams) (vq : ValidParams) impulses,
     NoiseParams_construct q = inr vq ->
     0 < c_F_divisor (footprint q) /\
     exists kernels,
       evaluate_filtered q impulses = inr kernels /\
       length kernels = length impulses).
Proof.
  intros Hdet. assert (Hc := construct_singular p Hdet).
  split; [ eexists; exact Hc | ]. split.
  { intros Hb. rewrite Hc. destruct (Rle_dec (bandwidth p) 0) as [Hb' | _]; [ lra | reflexivity ]. }
  split.
  { intros vp Heq. apply (footprint_ok vp). rewrite Heq. exact Hdet. }
  split.
  { intros impulses. eexists. split; [ exact Hc | ].
    unfold evaluate_filtered. rewrite Hc. reflexivity. }
  split; [ apply c_F_divisor_zero; exact Hdet | ].
  intros q vq impulses Hq. split.
  - assert (Hv := construct_ok q vq Hq). subst q.
    assert (Hd := footprint_ok vq).
    assert (H0 : 0 <= c_F_divisor (footprint (params vq))).
    { unfold c_F_divisor, M_TWO_PI. assert (Hpi := PI_RGT_0).
      apply Rmult_le_pos; [ lra | apply sqrt_pos ]. }
    destruct (Req_dec (c_F_divisor (footprint (params vq))) 0) as [Hz | Hnz].
    + exfalso. apply Hd. apply c_F_divisor_zero. exact Hz.
    + as_reals. lra.
  - unfold evaluate_filtered. rewrite Hq. eexists. split; [ reflexivity | ].
    apply length_map.
Qed.

Lemma singular_footprint_rejected_at_construction_witness :
  let p := {| anisotropic := Isotropic; bandwidth := 1; direction := mkVec3 1 0 0;
              do_filter := true; footprint := Matrix22.mk 1 1 1 1;
              periodic := false; period := mkVec3 1 1 1 |} in
  (exists e, NoiseParams_construct p = inl e) /\
  (0 < bandwidth p -> NoiseParams_construct p = inl SingularFootprint) /\
  (forall vp : ValidParams, params vp <> p) /\
  (forall impulses, exists e,
     NoiseParams_construct p = inl e /\ evaluate_filtered p impulses = inl e) /\
  c_F_divisor (footprint p) = 0 /\
  (forall (q : NoiseParams) (vq : ValidParams) impulses,
     NoiseParams_construct q = inr vq ->
     0 < c_F_divisor (footprint q) /\
     exists kernels,
       evaluate_filtered q impulses = inr kernels /\
       length kernels = length impulses).
Proof.
  intros p.
  apply (singular_footprint_rejected_at_construction p).
  unfold p, Matrix22.determinant. cbn. lra.
Defined.

(** ** Concrete runs *)

Example advance_from_one : fast_rng.advance 1%Z = 3039177861%Z.
Proof. reflexivity. Qed.

(** 2^31 is a fixed point of the step: every draw from it is the same. *)
Example advance_fixed_point : fast_rng.advance 2147483648%Z = 2147483648%Z.
Proof. reflexivity. Qed.

Example binary32_one : Binary32.one = SFone Binary32.prec Binary32.emax.
Proof. reflexivity. Qed.

(** [float (UINT_MAX)] is 2^32 in binary32. *)
Example binary32_uint_max :
  Binary32.of_unsigned UInt32.UINT_MAX = S754_finite false 8388608 9.
Proof. reflexivity. Qed.

(** The state 3108836275 is one the constructor returns when the hash
    returns it: the constructor only replaces a zero hash. *)
Example bad_state_constructible (p : Vec3) (seed : Z) :
  @fast_rng.make {| inthash := fun _ => 3108836275%Z; quick_floor := Zfloor |} p seed
  = 3108836275%Z.
Proof. reflexivity. Qed.

Example floorf_integer (k : Z) : floorf (IZR k) = IZR k.
Proof. unfold floorf. rewrite ZfloorZ. reflexivity. Qed.

Example wrap_five_halves : wrap (5 / 2) 2 = 1 / 2.
Proof.
  destruct (wrap_spec_aux (5 / 2) 2) as [-> _].
  assert (Hp : clamped_period 2 = 2).
  { unfold clamped_period. rewrite (floorf_integer 2). apply Rmax_right. lra. }
  rewrite Hp.
  assert (Hf : floorf (5 / 2 / 2) = 1).
  { unfold floorf. rewrite (Zfloor_eq 1); [ reflexivity | lra ]. }
  rewrite Hf. lra.
Qed.

Example wrap_negative : wrap (- (1 / 2)) 2 = 3 / 2.
Proof.
  destruct (wrap_spec_aux (- (1 / 2)) 2) as [-> _].
  assert (Hp : clamped_period 2 = 2).
  { unfold clamped_period. rewrite (floorf_integer 2). apply Rmax_right. lra. }
  rewrite Hp.
  assert (Hf : floorf (- (1 / 2) / 2) = -1).
  { unfold floorf. rewrite (Zfloor_eq (-1)); [ reflexivity | lra ]. }
  rewrite Hf. lra.
Qed.

(** A zero period is clamped to 1. *)
Example wrap_zero_period : wrap (5 / 2) 0 = 1 / 2.
Proof.
  rewrite wrap_small_period by lra.
  assert (Hf : floorf (5 / 2) = 2).
  { unfold floorf. rewrite (Zfloor_eq 2); [ reflexivity | lra ]. }
  rewrite Hf. lra.
Qed.

(** * Further properties of the generator *)

#[local] Open Scope Z_scope.

Lemma multiplier_inverse :
  (fast_rng.multiplier * inverse_multiplier) mod UInt32.modulus = 1.
Proof. reflexivity. Qed.

Lemma retreat_advance (s : fast_rng.state) : retreat (fast_rng.advance s) = UInt32.unsigned s.
Proof.
  unfold retreat, fast_rng.advance, UInt32.mul, UInt32.unsigned.
  rewrite Z.mul_mod_idemp_l by (unfold UInt32.modulus; lia).
  rewrite <- Z.mul_assoc, <- Z.mul_mod_idemp_r by (unfold UInt32.modulus; lia).
  rewrite multiplier_inverse, Z.mul_1_r. reflexivity.
Qed.

Lemma advance_retreat (s : fast_rng.state) : fast_rng.advance (retreat s) = UInt32.unsigned s.
Proof.
  unfold retreat, fast_rng.advance, UInt32.mul, UInt32.unsigned.
  rewrite Z.mul_mod_idemp_l by (unfold UInt32.modulus; lia).
  rewrite <- Z.mul_assoc, <- Z.mul_mod_idemp_r by (unfold UInt32.modulus; lia).
  rewrite (Z.mul_comm inverse_multiplier), multiplier_inverse, Z.mul_1_r. reflexivity.
Qed.

(** X1.  The step [m_seed *= 3039177861u] is a permutation of the 32-bit
    states: multiplying by 1186131021 modulo 2^32 undoes it, in both
    orders, so two different states never step to the same state and
    every state has a predecessor. *)
Theorem advance_is_permutation (s s' : fast_rng.state) :
  retreat (fast_rng.advance s) = UInt32.unsigned s /\
  fast_rng.advance (retreat s) = UInt32.unsigned s /\
  (fast_rng.advance s = fast_rng.advance s' -> UInt32.unsigned s = UInt32.unsigned s').
Proof.
  split; [ apply retreat_advance | ]. split; [ apply advance_retreat | ].
  intros Heq. rewrite <- (retreat_advance s), <- (retreat_advance s'), Heq. reflexivity.
Qed.

Lemma advance_mod4 (s : fast_rng.state) : fast_rng.advance s mod 4 = s mod 4.
Proof.
  unfold fast_rng.advance, UInt32.mul, UInt32.unsigned, UInt32.modulus.
  rewrite Z.mod_mod_divide by (exists (2 ^ 30); reflexivity).
  rewrite Z.mul_mod by lia.
  change (fast_rng.multiplier mod 4) with 1.
  rewrite Z.mul_1_r, Z.mod_mod by lia. reflexivity.
Qed.

Lemma after_mod4 (n : nat) (s : fast_rng.state) : fast_rng.after n s mod 4 = s mod 4.
Proof.
  induction n as [ | n IH ]; [ reflexivity | ].
  rewrite after_S, advance_mod4. exact IH.
Qed.

(** X2.  The two low bits of the state never change: after any number
    of draws the state is congruent to the initial one modulo 4 (the
    multiplier is 1 modulo 4).  In particular odd states stay odd and
    even states stay even. *)
Theorem state_low_bits_invariant (n : nat) (s : fast_rng.state) :
  fast_rng.after n s mod 4 = s mod 4 /\
  snd (fast_rng.call (fast_rng.after n s)) mod 4 = s mod 4 /\
  Z.odd (fast_rng.after n s) = Z.odd s.
Proof.
  assert (H4 := after_mod4 n s).
  split; [ exact H4 | ]. split.
  - rewrite call_state, advance_mod4. exact H4.
  - rewrite !Zodd_mod.
    rewrite <- (Z.mod_mod_divide (fast_rng.after n s) 4 2) by (exists 2; reflexivity).
    rewrite <- (Z.mod_mod_divide s 4 2) by (exists 2; reflexivity).
    rewrite H4. reflexivity.
Qed.

Lemma advance_unsigned (s : fast_rng.state) :
  fast_rng.advance (UInt32.unsigned s) = fast_rng.advance s.
Proof.
  unfold fast_rng.advance, UInt32.mul, UInt32.unsigned.
  apply Z.mul_mod_idemp_l. unfold UInt32.modulus. lia.
Qed.

Lemma after_add (a b : nat) (s : fast_rng.state) :
  fast_rng.after (a + b) s = fast_rng.after b (fast_rng.after a s).
Proof.
  revert s. induction a as [ | a IH ]; intros s; [ reflexivity | ].
  change (fast_rng.after (S a + b) s) with (fast_rng.after (a + b) (fast_rng.advance s)).
  rewrite IH. reflexivity.
Qed.

Lemma after_range (n : nat) (s : fast_rng.state) :
  n <> O -> 0 <= fast_rng.after n s < 2 ^ 32.
Proof.
  destruct n as [ | n ]; [ congruence | ]. intros _.
  rewrite after_S. apply advance_range.
Qed.

Lemma draw_unsigned (k : nat) (s : fast_rng.state) :
  fast_rng.draw k (UInt32.unsigned s) = fast_rng.draw k s.
Proof.
  unfold fast_rng.draw. destruct k as [ | k ].
  - cbn [fast_rng.after]. unfold fast_rng.call. rewrite advance_unsigned. reflexivity.
  - change (fast_rng.after (S k) (UInt32.unsigned s))
      with (fast_rng.after k (fast_rng.advance (UInt32.unsigned s))).
    rewrite advance_unsigned. reflexivity.
Qed.

(** The state after [n] draws, in closed form. *)
Lemma after_power (n : nat) (s : fast_rng.state) :
  UInt32.unsigned (fast_rng.after n s)
  = (s * fast_rng.multiplier ^ Z.of_nat n) mod UInt32.modulus.
Proof.
  revert s. induction n as [ | n IH ]; intros s.
  - cbn [fast_rng.after]. rewrite Z.pow_0_r, Z.mul_1_r. reflexivity.
  - change (fast_rng.after (S n) s) with (fast_rng.after n (fast_rng.advance s)).
    rewrite IH. unfold fast_rng.advance, UInt32.mul, UInt32.unsigned.
    rewrite Z.mul_mod_idemp_l by (unfold UInt32.modulus; lia).
    rewrite Nat2Z.inj_succ, Z.pow_succ_r by lia.
    f_equal. ring.
Qed.

Lemma square_chain_power (j : nat) (x : Z) :
  square_chain j x = x ^ (2 ^ Z.of_nat j) mod UInt32.modulus.
Proof.
  induction j as [ | j IH ].
  - cbn [square_chain]. rewrite Z.pow_0_r, Z.pow_1_r. reflexivity.
  - cbn [square_chain]. cbv zeta. rewrite IH.
    rewrite <- Z.mul_mod by (unfold UInt32.modulus; lia).
    rewrite <- Z.pow_add_r by (apply Z.pow_nonneg; lia).
    rewrite Nat2Z.inj_succ, Z.pow_succ_r by lia.
    f_equal. f_equal. ring.
Qed.

Lemma multiplier_order : fast_rng.multiplier ^ (2 ^ 30) mod UInt32.modulus = 1.
Proof.
  change (2 ^ 30) with (2 ^ Z.of_nat 30). rewrite <- square_chain_power.
  vm_compute. reflexivity.
Qed.

Lemma after_period_general (n : nat) (s : fast_rng.state) :
  Z.of_nat n = 2 ^ 30 -> fast_rng.after n s = UInt32.unsigned s.
Proof.
  intros Hn.
  assert (Hn0 : n <> O) by (intros ->; discriminate Hn).
  rewrite <- (unsigned_small (fast_rng.after n s)) by (apply after_range; exact Hn0).
  rewrite after_power, Hn.
  unfold UInt32.unsigned.
  rewrite <- Z.mul_mod_idemp_r by (unfold UInt32.modulus; lia).
  rewrite multiplier_order, Z.mul_1_r. reflexivity.
Qed.

Lemma two_pow_30 : Z.of_nat (2 ^ 30) = 2 ^ 30.
Proof. rewrite Nat2Z.inj_pow. reflexivity. Qed.

(** X4.  The stream repeats after 2^30 draws, whatever the state: the
    multiplier has order 2^30 modulo 2^32, so after 2^30 steps the state
    is back (reduced to 32 bits) and draw [k + 2^30] is draw [k]. *)
Theorem stream_period (k : nat) (s : fast_rng.state) :
  fast_rng.after (2 ^ 30) s = UInt32.unsigned s /\
  fast_rng.draw (2 ^ 30 + k) s = fast_rng.draw k s.
Proof.
  assert (Hp := after_period_general (2 ^ 30) s two_pow_30).
  split; [ exact Hp | ].
  unfold fast_rng.draw at 1. rewrite after_add, Hp.
  apply draw_unsigned.
Qed.

Lemma multiplier_minus_one : fast_rng.multiplier - 1 = 4 * 759794465.
Proof. reflexivity. Qed.

(** X5.  A 32-bit state is a fixed point of the step exactly when it is
    a multiple of 2^30 (0, 2^30, 2^31 or 3 * 2^30); the constructor rules
    out 0 only.  From such a state every draw is the same number. *)
Theorem fixed_points (s : fast_rng.state) :
  0 <= s < 2 ^ 32 ->
  (fast_rng.advance s = s <-> s mod 2 ^ 30 = 0) /\
  (s mod 2 ^ 30 = 0 -> forall n, fast_rng.draw n s = (IZR s / IZR UInt32.UINT_MAX)%R).
Proof.
  intros Hs.
  assert (Hiff : fast_rng.advance s = s <-> s mod 2 ^ 30 = 0).
  { unfold fast_rng.advance, UInt32.mul, UInt32.unsigned, UInt32.modulus. split.
    - intros Hfix.
      assert (Hdiv : (2 ^ 32 | s * fast_rng.multiplier - s)).
      { rewrite <- Hfix at 2. apply Z.mod_divide; [ lia | ].
        rewrite Zminus_mod, Z.mod_mod, Z.sub_diag by lia. reflexivity. }
      replace (s * fast_rng.multiplier - s) with (759794465 * (4 * s))
        in Hdiv by (unfold fast_rng.multiplier; ring).
      apply Z.gauss in Hdiv; [ | reflexivity ].
      destruct Hdiv as [k Hk]. apply Z.mod_divide; [ lia | ].
      exists k. lia.
    - intros Hmod. apply Z.mod_divide in Hmod; [ | lia ].
      destruct Hmod as [k Hk]. subst s.
      replace (k * 2 ^ 30 * fast_rng.multiplier)
        with (k * 2 ^ 30 + k * 759794465 * 2 ^ 32) by (unfold fast_rng.multiplier; ring).
      rewrite Z.mod_add by lia. apply Z.mod_small. lia. }
  split; [ exact Hiff | ].
  intros Hmod n. apply Hiff in Hmod.
  assert (Hafter : forall k, fast_rng.after k s = s).
  { intros k. induction k as [ | k IH ]; [ reflexivity | ].
    rewrite after_S, IH. exact Hmod. }
  unfold fast_rng.draw. rewrite call_value, Hafter, Hmod. reflexivity.
Qed.

Lemma fixed_points_witness :
  (fast_rng.advance 3221225472 = 3221225472 <-> 3221225472 mod 2 ^ 30 = 0) /\
  (3221225472 mod 2 ^ 30 = 0 ->
   forall n, fast_rng.draw n 3221225472 = (IZR 3221225472 / IZR UInt32.UINT_MAX)%R).
Proof.
  apply (fixed_points 3221225472). lia.
Defined.

(** * Further properties of [poisson] *)

#[local] Open Scope R_scope.

Lemma exp_ge_one (x : R) : 0 <= x -> 1 <= exp x.
Proof.
  intros Hx. destruct (Rle_lt_or_eq_dec 0 x Hx) as [Hlt | <-].
  - left. rewrite <- exp_0. apply exp_increasing. exact Hlt.
  - rewrite exp_0. lra.
Qed.

Lemma poisson_no_loop (fuel : nat) (mean : float) (s : fast_rng.state) :
  fst (fast_rng.call s) <= exp (- mean) ->
  fast_rng.poisson (S fuel) mean s = Some (0%Z, fast_rng.advance s).
Proof.
  intros Hle. unfold fast_rng.poisson, fast_rng.call in *. cbn [fst] in Hle.
  cbn [fast_rng.poisson_loop].
  destruct (Rgt_dec _ _) as [Hgt | _]; [ lra | reflexivity ].
Qed.

(** X8.  With a mean that is zero or negative the threshold
    [exp (- mean)] is at least 1, no draw exceeds it, and [poisson]
    returns 0 after exactly one draw. *)
Theorem poisson_nonpositive_mean (fuel : nat) (mean : float) (s : fast_rng.state) :
  mean <= 0 ->
  fast_rng.poisson (S fuel) mean s = Some (0%Z, fast_rng.advance s).
Proof.
  intros Hm. apply poisson_no_loop.
  assert (Hg : 1 <= exp (- mean)) by (apply exp_ge_one; lra).
  assert (Hu := call_bounds s). lra.
Qed.

Lemma poisson_nonpositive_mean_witness :
  fast_rng.poisson 1 0 1%Z = Some (0%Z, fast_rng.advance 1%Z).
Proof.
  apply (poisson_nonpositive_mean 0 0 1%Z). lra.
Defined.

(** A result of the loop is the first index, from the entry index on,
    at which the running product is at most the threshold. *)
Lemma poisson_loop_result (g : R) (s : fast_rng.state) (fuel k : nat)
    (c : Z) (r : fast_rng.state) :
  fast_rng.poisson_loop fuel g (fast_rng.product (S k) s)
      (UInt32.unsigned (Z.of_nat k)) (fast_rng.after (S k) s) = Some (c, r) ->
  exists n : nat,
    (k <= n)%nat /\
    fast_rng.product (S n) s <= g /\
    (forall j, (k <= j < n)%nat -> fast_rng.product (S j) s > g) /\
    c = UInt32.to_int (UInt32.unsigned (Z.of_nat n)) /\
    r = fast_rng.after (S n) s.
Proof.
  revert k. induction fuel as [ | fuel IH ]; intros k Hrun; [ discriminate | ].
  cbn [fast_rng.poisson_loop] in Hrun.
  destruct (Rgt_dec (fast_rng.product (S k) s) g) as [Hgt | Hle].
  - rewrite incr_of_nat in Hrun.
    unfold fast_rng.call in Hrun. rewrite <- (after_S (S k)) in Hrun.
    assert (Hprod : fast_rng.product (S (S k)) s
                    = fast_rng.product (S k) s
                      * (IZR (fast_rng.after (S (S k)) s) / IZR UInt32.UINT_MAX)).
    { change (fast_rng.product (S (S k)) s)
        with (fast_rng.product (S k) s * fast_rng.draw (S k) s).
      unfold fast_rng.draw. rewrite call_value, <- after_S. reflexivity. }
    rewrite <- Hprod in Hrun.
    destruct (IH (S k) Hrun) as (n & Hn & Hp & Hmin & Hc & Hr).
    exists n. repeat split; try assumption; try lia.
    intros j Hj. destruct (Nat.eq_dec j k) as [-> | Hjk]; [ exact Hgt | ].
    apply Hmin. lia.
  - injection Hrun as <- <-. exists k. repeat split; try lia; try lra.
Qed.



(** The call at a given index: when the running product first falls
    to the threshold at draw [n], [poisson] returns [n]. *)
Lemma poisson_at_index (mean : float) (s : fast_rng.state) (n : nat) :
  (forall j, (j < n)%nat -> fast_rng.product (S j) s > exp (- mean)) ->
  fast_rng.product (S n) s <= exp (- mean) ->
  forall fuel, (n < fuel)%nat ->
    fast_rng.poisson fuel mean s
    = Some (UInt32.to_int (UInt32.unsigned (Z.of_nat n)), fast_rng.after (S n) s).
Proof.
  intros Habove Hbelow fuel Hf.
  destruct (poisson_loop_stops (exp (- mean)) s n 0 Hbelow) as (n' & Hn' & Hp & _ & Hrun).
  assert (n' = n).
  { destruct (Nat.eq_dec n' n) as [He | Hne]; [ exact He | ].
    specialize (Habove n' ltac:(lia)). lra. }
  subst n'. rewrite poisson_enters_loop. apply Hrun. exact Hf.
Qed.

Lemma after_fixed (s : fast_rng.state) (k : nat) :
  fast_rng.advance s = s -> fast_rng.after k s = s.
Proof.
  intros Hfix. induction k as [ | k IH ]; [ reflexivity | ].
  rewrite after_S, IH. exact Hfix.
Qed.

Lemma product_fixed (s : fast_rng.state) (n : nat) :
  fast_rng.advance s = s ->
  fast_rng.product n s = (IZR s / IZR UInt32.UINT_MAX) ^ n.
Proof.
  intros Hfix. induction n as [ | n IH ]; [ reflexivity | ].
  cbn [fast_rng.product]. rewrite IH. unfold fast_rng.draw.
  rewrite call_value, after_fixed, Hfix by exact Hfix.
  rewrite <- tech_pow_Rmult. as_reals. ring.
Qed.

Lemma exp_minus_ln (x : R) : 0 < x -> exp (- ln x) = / x.
Proof. intros Hx. rewrite exp_Ropp, exp_ln by exact Hx. reflexivity. Qed.

(** From the state 2^31, whose draws are all [2^31 / UINT_MAX] (just
    above 1/2): with the threshold 1/3 the loop runs once and the count
    is 1; with the threshold 1/10 it runs three times and the count is 3. *)
Lemma poisson_counts_example :
  fast_rng.poisson 4 (ln 3) 2147483648%Z = Some (1%Z, 2147483648%Z) /\
  fast_rng.poisson 4 (ln 10) 2147483648%Z = Some (3%Z, 2147483648%Z).
Proof.
  assert (Hfix : fast_rng.advance 2147483648%Z = 2147483648%Z) by reflexivity.
  assert (Hprod := fun n => product_fixed 2147483648%Z n Hfix).
  unfold UInt32.UINT_MAX in Hprod.
  split.
  - rewrite (poisson_at_index (ln 3) 2147483648%Z 1).
    + rewrite (after_fixed _ _ Hfix). reflexivity.
    + intros j Hj. assert (j = O) by lia. subst j.
      rewrite Hprod, exp_minus_ln by lra. simpl pow. lra.
    + rewrite Hprod, exp_minus_ln by lra. simpl pow. lra.
    + lia.
  - rewrite (poisson_at_index (ln 10) 2147483648%Z 3).
    + rewrite (after_fixed _ _ Hfix). reflexivity.
    + intros j Hj. rewrite Hprod, exp_minus_ln by lra.
      assert (j = 0 \/ j = 1 \/ j = 2)%nat as [-> | [-> | ->]] by lia; simpl pow; lra.
    + rewrite Hprod, exp_minus_ln by lra. simpl pow. lra.
    + lia.
Qed.



(** * The draw in binary32, near [UINT_MAX] *)

#[local] Open Scope Z_scope.

Lemma top_states_draws :
  map (fun s' => Binary32.div (Binary32.of_unsigned s')
                              (Binary32.of_unsigned UInt32.UINT_MAX)) top_states
  = repeat Binary32.one 128.
Proof. vm_compute. reflexivity. Qed.

Lemma top_states_range (s' : Z) : 4294967168 <= s' <= 4294967295 -> In s' top_states.
Proof.
  intros Hs. unfold top_states. apply in_map_iff.
  exists (Z.to_nat (s' - 4294967168)). split; [ lia | ].
  apply in_seq. lia.
Qed.

(** X10.  In binary32, whenever the new state is one of the 128 values
    from [0xFFFFFF80] to [0xFFFFFFFF], its conversion to [float] rounds up
    to 2^32 and [operator()] returns exactly 1.0f. *)
Theorem binary32_top_states_return_one (s : fast_rng.state) :
  4294967168 <= fast_rng.advance s ->
  Binary32.call s = (Binary32.one, fast_rng.advance s).
Proof.
  intros Hs. assert (Hr := advance_range s).
  unfold Binary32.call. f_equal.
  assert (Hin : In (fast_rng.advance s) top_states) by (apply top_states_range; lia).
  apply (in_map (fun s' => Binary32.div (Binary32.of_unsigned s')
                                        (Binary32.of_unsigned UInt32.UINT_MAX))) in Hin.
  rewrite top_states_draws in Hin. apply repeat_spec in Hin. exact Hin.
Qed.

Lemma binary32_top_states_return_one_witness :
  Binary32.call 3108836275 = (Binary32.one, fast_rng.advance 3108836275).
Proof.
  apply (binary32_top_states_return_one 3108836275). vm_compute. discriminate.
Defined.

(** * Further properties of [wrap] and [floor] *)

#[local] Open Scope R_scope.

Lemma floorf_add_integer (x : R) (k : Z) : floorf (x + IZR k) = floorf x + IZR k.
Proof. unfold floorf. rewrite Zfloor_addz, plus_IZR. reflexivity. Qed.

Lemma floorf_unit_interval (x : R) : 0 <= x < 1 -> floorf x = 0.
Proof. intros Hx. unfold floorf. rewrite (Zfloor_eq 0); [ reflexivity | lra ]. Qed.

Lemma wrap_periodic_aux (s period : float) (k : Z) :
  wrap (s + IZR k * clamped_period period) period = wrap s period.
Proof.
  destruct (wrap_spec_aux s period) as [Hw Hp].
  destruct (wrap_spec_aux (s + IZR k * clamped_period period) period) as [Hw' _].
  rewrite Hw, Hw'. set (p := clamped_period period) in *. as_reals.
  replace ((s + IZR k * p) / p) with (s / p + IZR k) by (field; lra).
  rewrite floorf_add_integer. ring.
Qed.

(** X12.  [wrap] is periodic: moving [s] by a whole number of (clamped)
    periods does not change the result, for the scalar and, axis by axis,
    for the vector overload. *)
Theorem wrap_periodic (s period : float) (k : Z) (sv pv : Vec3) (i j l : Z) :
  wrap (s + IZR k * clamped_period period) period = wrap s period /\
  wrap3 (add3 sv (mkVec3 (IZR i * clamped_period (x3 pv))
                          (IZR j * clamped_period (y3 pv))
                          (IZR l * clamped_period (z3 pv)))) pv
    = wrap3 sv pv.
Proof.
  split; [ apply wrap_periodic_aux | ].
  unfold wrap3, add3. cbn [x3 y3 z3]. rewrite !wrap_periodic_aux. reflexivity.
Qed.

Lemma Zfloor_quotient (a b : Z) : (0 < b)%Z -> Zfloor (IZR a / IZR b) = (a / b)%Z.
Proof.
  intros Hb. apply Zfloor_eq.
  assert (Hdiv := Z.div_mod a b ltac:(lia)).
  assert (Hmod := Z.mod_pos_bound a b Hb).
  assert (Hb' : 0 < IZR b) by (apply IZR_lt; exact Hb).
  assert (Ha : IZR a = IZR b * IZR (a / b) + IZR (a mod b))
    by (rewrite <- mult_IZR, <- plus_IZR; f_equal; exact Hdiv).
  assert (Hm0 : 0 <= IZR (a mod b)) by (apply IZR_le; lia).
  assert (Hm1 : IZR (a mod b) < IZR b) by (apply IZR_lt; lia).
  split.
  - apply Rmult_le_reg_r with (r := IZR b); [ exact Hb' | ].
    unfold Rdiv. rewrite Rmult_assoc, Rinv_l by lra. lra.
  - apply Rmult_lt_reg_r with (r := IZR b); [ exact Hb' | ].
    unfold Rdiv. rewrite Rmult_assoc, Rinv_l by lra. lra.
Qed.

Lemma clamped_period_Z (period : float) :
  clamped_period period = IZR (Z.max 1 (Zfloor period)).
Proof.
  unfold clamped_period, floorf.
  destruct (Z.le_ge_cases 1 (Zfloor period)) as [Hle | Hge].
  - rewrite Z.max_r by lia. apply Rmax_right. apply IZR_le. exact Hle.
  - rewrite Z.max_l by lia. apply Rmax_left. apply IZR_le. lia.
Qed.

(** X14.  On an integer coordinate [wrap] is the integer remainder:
    [wrap z period] is [z mod P] for the integer period
    [P = max 1 (floor period)], the remainder in [0, P) also for negative
    [z].  The wrapped cell coordinate is again an integer. *)
Theorem wrap_integer (z : Z) (period : float) :
  wrap (IZR z) period = IZR (z mod Z.max 1 (Zfloor period)) /\
  (0 <= z mod Z.max 1 (Zfloor period) < Z.max 1 (Zfloor period))%Z.
Proof.
  assert (HP : (0 < Z.max 1 (Zfloor period))%Z) by lia.
  split; [ | apply Z.mod_pos_bound; exact HP ].
  destruct (wrap_spec_aux (IZR z) period) as [-> _].
  rewrite clamped_period_Z. set (P := Z.max 1 (Zfloor period)) in *.
  unfold floorf. rewrite Zfloor_quotient by exact HP.
  rewrite <- mult_IZR, <- minus_IZR. f_equal.
  rewrite Z.mod_eq by lia. reflexivity.
Qed.

(** X15.  The floor of a sample point is its lattice cell: each
    coordinate of the point lies in [cell, cell + 1), moving the point by
    an integer vector moves the cell by that vector, and the floor of a
    cell corner is the corner itself. *)
Theorem floor_cell (P : Dual2 Vec3) (i j k : Z) (d1 d2 : Vec3) :
  (x3 (floor P) <= x3 (val P) < x3 (floor P) + 1 /\
   y3 (floor P) <= y3 (val P) < y3 (floor P) + 1 /\
   z3 (floor P) <= z3 (val P) < z3 (floor P) + 1) /\
  floor (mkDual2 (add3 (val P) (mkVec3 (IZR i) (IZR j) (IZR k))) d1 d2)
    = add3 (floor P) (mkVec3 (IZR i) (IZR j) (IZR k)) /\
  floor (mkDual2 (floor P) d1 d2) = floor P.
Proof.
  split; [ | split ].
  - unfold floor. cbn [x3 y3 z3]. repeat split; apply floorf_bound.
  - unfold floor, add3. cbn [val x3 y3 z3]. rewrite !floorf_add_integer. reflexivity.
  - unfold floor. cbn [val x3 y3 z3]. unfold floorf. rewrite !ZfloorZ. reflexivity.
Qed.

(** * Further properties of the kernel, the slicer and the filter *)

Lemma exp_le_one (x : R) : x <= 0 -> 0 < exp x <= 1.
Proof.
  intros Hx. split; [ apply exp_pos | ].
  destruct (Rle_lt_or_eq_dec x 0 Hx) as [Hlt | ->].
  - left. rewrite <- exp_0. apply exp_increasing. exact Hlt.
  - rewrite exp_0. lra.
Qed.

Lemma envelope_exponent (b d : R) : 0 <= d -> - PI * b ^ 2 * d <= 0.
Proof.
  intros Hd. assert (Hpi := PI_RGT_0). assert (Hb : 0 <= b ^ 2) by (apply pow2_ge_0).
  assert (H : 0 <= PI * b ^ 2 * d)
    by (apply Rmult_le_pos; [ apply Rmult_le_pos; lra | exact Hd ]).
  lra.
Qed.

Lemma abs_cos_le_one (x : R) : Rabs (cos x) <= 1.
Proof. apply Rabs_le. assert (H := COS_bound x). lra. Qed.

(** X16.  The kernel never exceeds its weight in absolute value: the
    Gaussian envelope is in (0, 1] and the harmonic in [-1, 1].  At the
    origin the envelope is 1 and the value is [weight * cos phase]. *)
Theorem gabor_kernel_bounded (weight : Dual.D2) (omega : Vec3) (phi : Dual.D2)
    (b : float) (x : Dual2 Vec3) :
  Rabs (val (gabor_kernel weight omega phi b x)) <= Rabs (val weight) /\
  (val x = Imath.zero3 ->
   val (gabor_kernel weight omega phi b x) = val weight * cos (val phi)).
Proof.
  rewrite gabor_kernel_value. split.
  - rewrite !Rabs_mult.
    assert (He := exp_le_one _ (envelope_exponent b _ (dot3_self_nonneg (val x)))).
    rewrite (Rabs_pos_eq (exp _)) by lra.
    assert (Hc := abs_cos_le_one (2 * PI * Imath.dot3 omega (val x) + val phi)).
    assert (Hw := Rabs_pos (val weight)).
    assert (Hc0 := Rabs_pos (cos (2 * PI * Imath.dot3 omega (val x) + val phi))).
    apply Rle_trans with (r2 := Rabs (val weight) * exp (- PI * b ^ 2 * Imath.dot3 (val x) (val x)) * 1).
    + apply Rmult_le_compat_l; [ | exact Hc ].
      apply Rmult_le_pos; lra.
    + rewrite Rmult_1_r. rewrite <- (Rmult_1_r (Rabs (val weight))) at 2.
      apply Rmult_le_compat_l; lra.
  - intros ->. unfold Imath.dot3, Imath.zero3. cbn [x3 y3 z3]. as_reals.
    replace (- PI * b ^ 2 * (0 * 0 + 0 * 0 + 0 * 0)) with 0 by (as_reals; ring).
    rewrite exp_0, Rmult_1_r. f_equal. f_equal. as_reals. ring.
Qed.

(** X17.  The slicer only attenuates: the sliced weight is at most the
    weight in absolute value, it depends on the distance through its
    square only (same weight on both sides of the plane), and on the
    plane itself ([d = 0]) weight and phase are unchanged. *)
Theorem slice_attenuates (d : Dual.D2) (w a : float) (omega : Vec3) (phi : float) :
  Rabs (val (w_s (slice_gabor_kernel_3d d w a omega phi))) <= Rabs w /\
  val (w_s (slice_gabor_kernel_3d (Dual.ssub 0 d) w a omega phi))
    = val (w_s (slice_gabor_kernel_3d d w a omega phi)) /\
  (val d = 0 ->
   val (w_s (slice_gabor_kernel_3d d w a omega phi)) = w /\
   val (phi_s (slice_gabor_kernel_3d d w a omega phi)) = phi).
Proof.
  unfold slice_gabor_kernel_3d, M_PI, M_TWO_PI. cbn -[pow]. as_reals.
  assert (Hd : 0 <= val d * val d) by nra.
  assert (Harg : - PI * (a * a) * (val d * val d) = - PI * a ^ 2 * (val d * val d))
    by (as_reals; ring).
  assert (He := exp_le_one _ (envelope_exponent a _ Hd)).
  as_reals.
  split; [ | split ].
  - rewrite Harg, Rabs_mult, (Rabs_pos_eq (exp _)) by lra.
    assert (Hw := Rabs_pos w).
    rewrite <- (Rmult_1_r (Rabs w)) at 2. apply Rmult_le_compat_l; lra.
  - f_equal. f_equal. as_reals. ring.
  - intros ->. split.
    + replace (- PI * (a * a) * (0 * 0)) with 0 by (as_reals; ring). rewrite exp_0. as_reals. ring.
    + as_reals. ring.
Qed.

(** ** The filter on a footprint with independent variances *)

Lemma diag_is_diag2 (c : R) : diag c = diag2 c c.
Proof. reflexivity. Qed.

Lemma scale_diag2 (k p q : R) : Matrix22.scale k (diag2 p q) = diag2 (k * p) (k * q).
Proof. unfold Matrix22.scale, diag2. cbn. f_equal; as_reals; ring. Qed.

Lemma add_diag2 (p q p' q' : R) :
  Matrix22.add (diag2 p q) (diag2 p' q') = diag2 (p + p') (q + q').
Proof. unfold Matrix22.add, diag2. cbn. f_equal; as_reals; ring. Qed.

Lemma mul_diag2 (p q p' q' : R) :
  Matrix22.mul (diag2 p q) (diag2 p' q') = diag2 (p * p') (q * q').
Proof. unfold Matrix22.mul, diag2. cbn. f_equal; as_reals; ring. Qed.

Lemma inverse_diag2 (p q : R) :
  p <> 0 -> q <> 0 -> Matrix22.inverse (diag2 p q) = diag2 (/ p) (/ q).
Proof.
  intros Hp Hq. unfold Matrix22.inverse, Matrix22.determinant, diag2. cbn.
  f_equal; as_reals; field; auto.
Qed.

Lemma determinant_diag2 (p q : R) : Matrix22.determinant (diag2 p q) = p * q.
Proof. unfold Matrix22.determinant, diag2. cbn. as_reals. ring. Qed.

Lemma multMatrix_diag2 (p q : R) (v : Vec2) :
  Matrix22.multMatrix (diag2 p q) v = mkVec2 (p * x2 v) (q * y2 v).
Proof. unfold Matrix22.multMatrix, diag2. cbn. as_reals. f_equal; ring. Qed.

Lemma mulVec_diag2 (p q : R) (v : Vec2) :
  Matrix22.mulVec (diag2 p q) v = mkVec2 (p * x2 v) (q * y2 v).
Proof. unfold Matrix22.mulVec, diag2. cbn. as_reals. f_equal; ring. Qed.

Lemma filter_diag2 (a p q : R) (w phi : Dual.D2) (omega : Vec2) :
  0 < a -> 0 < p -> 0 < q ->
  a_f (filter_gabor_kernel_2d (diag2 p q) w a omega phi)
    = sqrt (a ^ 2 / sqrt ((1 + 2 * PI * a ^ 2 * p) * (1 + 2 * PI * a ^ 2 * q))) /\
  omega_f (filter_gabor_kernel_2d (diag2 p q) w a omega phi)
    = mkVec2 (x2 omega / (1 + 2 * PI * a ^ 2 * p))
             (y2 omega / (1 + 2 * PI * a ^ 2 * q)) /\
  val (w_f (filter_gabor_kernel_2d (diag2 p q) w a omega phi))
    = val w
      * exp (- (2 * PI ^ 2)
             * (p * x2 omega ^ 2 / (1 + 2 * PI * a ^ 2 * p)
                + q * y2 omega ^ 2 / (1 + 2 * PI * a ^ 2 * q)))
      / sqrt ((1 + 2 * PI * a ^ 2 * p) * (1 + 2 * PI * a ^ 2 * q)).
Proof.
  intros Ha Hp Hq. assert (Hpi := PI_RGT_0).
  assert (HDp := footprint_denominator_pos a p Ha Hp).
  assert (HDq := footprint_denominator_pos a q Ha Hq).
  assert (Ha2 : 0 < a ^ 2) by (apply pow_lt; lra).
  unfold filter_gabor_kernel_2d, M_PI, M_TWO_PI.
  cbn [a_f omega_f w_f].
  rewrite !scale_identity, !diag_is_diag2.
  rewrite (inverse_diag2 p q) by lra. rewrite scale_diag2.
  set (Dp := 1 + 2 * PI * a ^ 2 * p) in *. set (Dq := 1 + 2 * PI * a ^ 2 * q) in *.
  assert (HDD : 0 < Dp * Dq) by (apply Rmult_lt_0_compat; assumption).
  assert (Hs : 0 < sqrt (Dp * Dq)) by (apply sqrt_lt_R0; exact HDD).
  assert (Hg : 0 < a * a / (2 * PI)) by (apply Rdiv_lt_0_compat; nra).
  assert (Hkp : 0 < 1 / (4 * PI * PI) * / p)
    by (apply Rmult_lt_0_compat; [ apply Rdiv_lt_0_compat; nra | apply Rinv_0_lt_compat; lra ]).
  assert (Hkq : 0 < 1 / (4 * PI * PI) * / q)
    by (apply Rmult_lt_0_compat; [ apply Rdiv_lt_0_compat; nra | apply Rinv_0_lt_compat; lra ]).
  rewrite (inverse_diag2 (1 / (4 * PI * PI) * / p) (1 / (4 * PI * PI) * / q)) by lra.
  rewrite (inverse_diag2 (a * a / (2 * PI)) (a * a / (2 * PI))) by lra.
  rewrite !add_diag2.
  assert (HK1 : / (1 / (4 * PI * PI) * / p) + / (a * a / (2 * PI)) = 2 * PI * Dp / a ^ 2)
    by (unfold Dp; field; lra).
  assert (HK2 : / (1 / (4 * PI * PI) * / q) + / (a * a / (2 * PI)) = 2 * PI * Dq / a ^ 2)
    by (unfold Dq; field; lra).
  assert (HT1 : a * a / (2 * PI) + 1 / (4 * PI * PI) * / p = Dp / (4 * PI ^ 2 * p))
    by (unfold Dp; field; lra).
  assert (HT2 : a * a / (2 * PI) + 1 / (4 * PI * PI) * / q = Dq / (4 * PI ^ 2 * q))
    by (unfold Dq; field; lra).
  rewrite HK1, HK2, HT1, HT2.
  assert (HK1pos : 0 < 2 * PI * Dp / a ^ 2)
    by (apply Rdiv_lt_0_compat; [ apply Rmult_lt_0_compat; lra | exact Ha2 ]).
  assert (HK2pos : 0 < 2 * PI * Dq / a ^ 2)
    by (apply Rdiv_lt_0_compat; [ apply Rmult_lt_0_compat; lra | exact Ha2 ]).
  assert (Hpi2 : 0 < 4 * PI ^ 2) by nra.
  assert (HT1pos : 0 < Dp / (4 * PI ^ 2 * p))
    by (apply Rdiv_lt_0_compat; [ lra | apply Rmult_lt_0_compat; lra ]).
  assert (HT2pos : 0 < Dq / (4 * PI ^ 2 * q))
    by (apply Rdiv_lt_0_compat; [ lra | apply Rmult_lt_0_compat; lra ]).
  rewrite (inverse_diag2 (2 * PI * Dp / a ^ 2) (2 * PI * Dq / a ^ 2)) by lra.
  rewrite (inverse_diag2 (Dp / (4 * PI ^ 2 * p)) (Dq / (4 * PI ^ 2 * q))) by lra.
  rewrite !determinant_diag2, mul_diag2, multMatrix_diag2, mulVec_diag2.
  split; [ | split ].
  - f_equal.
    replace (/ (2 * PI * Dp / a ^ 2) * / (2 * PI * Dq / a ^ 2))
      with ((a ^ 2 / (2 * PI)) * (a ^ 2 / (2 * PI)) / (Dp * Dq)) by (field; lra).
    rewrite sqrt_div_alt by exact HDD.
    rewrite sqrt_square by (left; apply Rdiv_lt_0_compat; lra).
    field. lra.
  - f_equal; as_reals; field; lra.
  - cbn [Dual.muls Dual.smul val]. unfold Imath.dot2. cbn [x2 y2].
    generalize (val w). intros vw. as_reals.
    assert (Hroots : sqrt (p * q) * sqrt (Dp / (4 * PI ^ 2 * p) * (Dq / (4 * PI ^ 2 * q)))
                     = sqrt (Dp * Dq) / (4 * PI ^ 2)).
    { rewrite <- sqrt_mult.
      - replace (p * q * (Dp / (4 * PI ^ 2 * p) * (Dq / (4 * PI ^ 2 * q))))
          with (Dp * Dq / ((4 * PI ^ 2) * (4 * PI ^ 2))) by (field; lra).
        rewrite sqrt_div_alt by (apply Rmult_lt_0_compat; lra).
        rewrite (sqrt_square (4 * PI ^ 2)) by lra. reflexivity.
      - left. apply Rmult_lt_0_compat; lra.
      - left. apply Rmult_lt_0_compat; lra. }
    assert (Hsp : 0 < sqrt (p * q)) by (apply sqrt_lt_R0; apply Rmult_lt_0_compat; lra).
    assert (Hst : 0 < sqrt (Dp / (4 * PI ^ 2 * p) * (Dq / (4 * PI ^ 2 * q))))
      by (apply sqrt_lt_R0; apply Rmult_lt_0_compat; lra).
    replace (1 / (2 * PI * sqrt (p * q)) * vw
             * (1 / (2 * PI * sqrt (Dp / (4 * PI ^ 2 * p) * (Dq / (4 * PI ^ 2 * q))))))
      with (vw / (4 * PI ^ 2
                     * (sqrt (p * q)
                        * sqrt (Dp / (4 * PI ^ 2 * p) * (Dq / (4 * PI ^ 2 * q))))))
      by (field; lra).
    rewrite Hroots.
    replace (- (1 / 2) * (/ (Dp / (4 * PI ^ 2 * p)) * x2 omega * x2 omega
                          + / (Dq / (4 * PI ^ 2 * q)) * y2 omega * y2 omega))
      with (- (2 * PI ^ 2) * (p * x2 omega ^ 2 / Dp + q * y2 omega ^ 2 / Dq))
      by (field; lra).
    field. lra.
Qed.



(** X18.  For a footprint with variances [p] and [q] along the two axes
    of the kernel's frame, the filter works axis by axis: the two
    components of the orientation are divided by [1 + 2 pi a^2 p] and
    [1 + 2 pi a^2 q], the bandwidth becomes [a] over the fourth root of
    the product of these two factors, the weight is divided by the square
    root of that product and damped by
    [exp (- 2 pi^2 (p omega.x^2 / (1 + 2 pi a^2 p) + q omega.y^2 / (1 + 2 pi a^2 q)))],
    and the phase is unchanged. *)
Theorem filter_diagonal_closed_form (a p q : R) (w phi : Dual.D2) (omega : Vec2) :
  0 < a -> 0 < p -> 0 < q ->
  a_f (filter_gabor_kernel_2d (diag2 p q) w a omega phi)
    = sqrt (a ^ 2 / sqrt ((1 + 2 * PI * a ^ 2 * p) * (1 + 2 * PI * a ^ 2 * q))) /\
  omega_f (filter_gabor_kernel_2d (diag2 p q) w a omega phi)
    = mkVec2 (x2 omega / (1 + 2 * PI * a ^ 2 * p))
             (y2 omega / (1 + 2 * PI * a ^ 2 * q)) /\
  val (w_f (filter_gabor_kernel_2d (diag2 p q) w a omega phi))
    = val w
      * exp (- (2 * PI ^ 2)
             * (p * x2 omega ^ 2 / (1 + 2 * PI * a ^ 2 * p)
                + q * y2 omega ^ 2 / (1 + 2 * PI * a ^ 2 * q)))
      / sqrt ((1 + 2 * PI * a ^ 2 * p) * (1 + 2 * PI * a ^ 2 * q)) /\
  phi_f (filter_gabor_kernel_2d (diag2 p q) w a omega phi) = phi.
Proof.
  intros Ha Hp Hq.
  destruct (filter_diag2 a p q w phi omega Ha Hp Hq) as (H1 & H2 & H3).
  repeat split; assumption || reflexivity.
Qed.

Lemma filter_diagonal_closed_form_witness :
  a_f (filter_gabor_kernel_2d (diag2 1 2) (Dual.const 1) 1 (mkVec2 1 0) (Dual.const 0))
    = sqrt (1 ^ 2 / sqrt ((1 + 2 * PI * 1 ^ 2 * 1) * (1 + 2 * PI * 1 ^ 2 * 2))) /\
  omega_f (filter_gabor_kernel_2d (diag2 1 2) (Dual.const 1) 1 (mkVec2 1 0) (Dual.const 0))
    = mkVec2 (x2 (mkVec2 1 0) / (1 + 2 * PI * 1 ^ 2 * 1))
             (y2 (mkVec2 1 0) / (1 + 2 * PI * 1 ^ 2 * 2)) /\
  val (w_f (filter_gabor_kernel_2d (diag2 1 2) (Dual.const 1) 1 (mkVec2 1 0) (Dual.const 0)))
    = val (Dual.const 1)
      * exp (- (2 * PI ^ 2)
             * (1 * x2 (mkVec2 1 0) ^ 2 / (1 + 2 * PI * 1 ^ 2 * 1)
                + 2 * y2 (mkVec2 1 0) ^ 2 / (1 + 2 * PI * 1 ^ 2 * 2)))
      / sqrt ((1 + 2 * PI * 1 ^ 2 * 1) * (1 + 2 * PI * 1 ^ 2 * 2)) /\
  phi_f (filter_gabor_kernel_2d (diag2 1 2) (Dual.const 1) 1 (mkVec2 1 0) (Dual.const 0))
    = Dual.const 0.
Proof.
  apply (filter_diagonal_closed_form 1 1 2 (Dual.const 1) (Dual.const 0) (mkVec2 1 0)); lra.
Defined.



(** * Further properties of [make_orthonormals] *)














(** X22.  The zero vector is the degenerate input: nothing fails, the
    three outputs are the zero vector, so they have length 0 and are not
    a frame. *)
Theorem make_orthonormals_degenerate (a0 b0 : Vec3) :
  out_v (make_orthonormals Imath.zero3 a0 b0) = Imath.zero3 /\
  out_a (make_orthonormals Imath.zero3 a0 b0) = Imath.zero3 /\
  out_b (make_orthonormals Imath.zero3 a0 b0) = Imath.zero3 /\
  Imath.length3 (out_v (make_orthonormals Imath.zero3 a0 b0)) = 0 /\
  Imath.length3 (out_a (make_orthonormals Imath.zero3 a0 b0)) = 0 /\
  Imath.length3 (out_b (make_orthonormals Imath.zero3 a0 b0)) = 0.
Proof.
  rewrite make_orthonormals_zero. cbn [out_v out_a out_b].
  assert (Hl : Imath.length3 Imath.zero3 = 0).
  { unfold Imath.length3, Imath.dot3, Imath.zero3. cbn [x3 y3 z3].
    replace (0 * 0 + 0 * 0 + 0 * 0) with 0 by ring. apply sqrt_0. }
  repeat split; try reflexivity; exact Hl.
Qed.

(** * Further properties of [wrap] and of the kernel template *)

(** X23.  Every period below 2 is treated as the period 1 (its floor is
    at most 1 and is clamped to 1): [wrap] then returns the fractional
    part [s - floor s], for zero and negative periods and also for a
    period such as 1.9. *)
Theorem wrap_period_below_two (s period : R) :
  period < 2 ->
  clamped_period period = 1 /\ wrap s period = s - floorf s.
Proof.
  intros Hp.
  assert (Hc : clamped_period period = 1).
  { unfold clamped_period. apply Rmax_left.
    assert (Hf := floorf_bound period).
    unfold floorf in *. destruct (Z_le_gt_dec (Zfloor period) 1) as [Hle | Hgt].
    - apply IZR_le. exact Hle.
    - exfalso. assert (H2 : 2 <= IZR (Zfloor period)) by (apply IZR_le; lia). lra. }
  split; [ exact Hc | ].
  destruct (wrap_spec_aux s period) as [Hw _]. rewrite Hw, Hc.
  replace (s / 1) with s by field. as_reals. ring.
Qed.

Lemma wrap_period_below_two_witness :
  clamped_period (19 / 10) = 1 /\ wrap (5 / 2) (19 / 10) = 5 / 2 - floorf (5 / 2).
Proof.
  apply (wrap_period_below_two (5 / 2) (19 / 10)). lra.
Defined.

(** X24.  The [Vec2] instance of the kernel template carries exact
    partials as well: when the weight, the phase and the two coordinates
    of the position are carried at [(u, v)], the result carries
    [weight * exp (- pi b^2 |x|^2) * cos (2 pi (omega . x) + phase)]. *)
Theorem gabor_kernel_2d_exact (W Phi X Y : R -> R -> R) (u v : R)
    (weight : Dual.D2) (omega : Vec2) (phi : Dual.D2) (b : float) (x : Dual2 Vec2) :
  carries W u v weight ->
  carries Phi u v phi ->
  carries X u v (comp2_x x) ->
  carries Y u v (comp2_y x) ->
  val (gabor_kernel weight omega phi b x)
    = val weight * exp (- PI * b ^ 2 * Imath.dot2 (val x) (val x))
        * cos (2 * PI * Imath.dot2 omega (val x) + val phi) /\
  carries (fun s t => W s t
                      * exp (- PI * b ^ 2 * Imath.dot2 (mkVec2 (X s t) (Y s t))
                                                       (mkVec2 (X s t) (Y s t)))
                      * cos (2 * PI * Imath.dot2 omega (mkVec2 (X s t) (Y s t)) + Phi s t))
          u v (gabor_kernel weight omega phi b x).
Proof.
  intros HW HPhi HX HY. split.
  - apply gabor_kernel_value_2d.
  - apply gabor_kernel_exact_2d; assumption.
Qed.

Lemma gabor_kernel_2d_exact_witness :
  let x := mkDual2 (mkVec2 0 0) (mkVec2 1 0) (mkVec2 0 1) in
  let omega := mkVec2 1 0 in
  val (gabor_kernel (Dual.const 1) omega (Dual.const 0) 1 x)
    = val (Dual.const 1) * exp (- PI * 1 ^ 2 * Imath.dot2 (val x) (val x))
        * cos (2 * PI * Imath.dot2 omega (val x) + val (Dual.const 0)) /\
  carries (fun s t => 1 * exp (- PI * 1 ^ 2 * Imath.dot2 (mkVec2 s t) (mkVec2 s t))
                        * cos (2 * PI * Imath.dot2 omega (mkVec2 s t) + 0))
          0 0 (gabor_kernel (Dual.const 1) omega (Dual.const 0) 1 x).
Proof.
  intros x omega.
  apply (gabor_kernel_2d_exact (fun _ _ => 1) (fun _ _ => 0)
           (fun s _ => s) (fun _ t => t) 0 0
           (Dual.const 1) omega (Dual.const 0) 1 x).
  - apply carries_const.
  - apply carries_const.
  - apply carries_first.
  - apply carries_second.
Defined.
